(** * Loan calculator: the amortization engine of [src/App.js]

    The engine is the callback of the first [useMemo] of [App] (parsing,
    validity guard, payment formula, month-by-month schedule) and the
    callback of the second one (yearly roll-up for the chart).

    Number model.  A JavaScript number is modelled as [NaN] or an exact
    rational ([Num q]): arithmetic is the arithmetic of the rationals, kept
    in lowest terms, so rounding to binary64, overflow, the infinities and
    the sign of zero are outside this model.  The general properties are
    proved on it.  Module [Binary64] at the end of the definitions is the
    same amortization callback on IEEE 754 double precision numbers (the
    primitive floats), used to evaluate the engine where rounding decides
    the outcome.

    The form state holds the raw field values; they are modelled as strings,
    which is what [parseFloat], [parseInt] and the loose comparison
    [i < loanTerm] see after [ToString] (the initial state [250000], [3.5],
    [30], [0] reads "250000", "3.5", "30", "0").  The builtins follow
    ECMA-262 on ASCII input. *)

From Stdlib Require Import QArith Qround Qpower Qabs Lqa ZArith NArith Lia.
From Stdlib Require Import Bool List String Ascii Floats Uint63.
Import ListNotations.

Open Scope string_scope.
Open Scope Q_scope.

(** ** Numbers *)

Inductive num : Type :=
| NaN : num
| Num (q : Q) : num.

Definition num_of_Z (z : Z) : num := Num (inject_Z z).
Definition num_of_nat (n : nat) : num := num_of_Z (Z.of_nat n).

Definition isNaN (x : num) : bool :=
  match x with NaN => true | Num _ => false end.

Definition Qltb (a b : Q) : bool := negb (Qle_bool b a).

(** Binary operators; a [NaN] operand gives [NaN]. *)
Definition num_add (x y : num) : num :=
  match x, y with
  | Num a, Num b => Num (Qred (a + b))
  | _, _ => NaN
  end.

Definition num_sub (x y : num) : num :=
  match x, y with
  | Num a, Num b => Num (Qred (a - b))
  | _, _ => NaN
  end.

Definition num_mul (x y : num) : num :=
  match x, y with
  | Num a, Num b => Num (Qred (a * b))
  | _, _ => NaN
  end.

(** Division.  A zero divisor gives an infinity or NaN in JavaScript; the
    model has no infinities and answers [NaN].  Lemma [pmt_divisors_positive]
    shows that the engine never divides by zero. *)
Definition num_div (x y : num) : num :=
  match x, y with
  | Num a, Num b => if Qeq_bool b 0 then NaN else Num (Qred (a / b))
  | _, _ => NaN
  end.

Definition num_neg (x : num) : num :=
  match x with Num a => Num (Qred (- a)) | NaN => NaN end.

(** [Math.pow] at an integral exponent, the only use the engine makes of it
    (the exponent is plus or minus [termInMonths]); other exponents are
    outside the model. *)
Definition num_pow (x y : num) : num :=
  match x, y with
  | Num a, Num b =>
      let b' := Qred b in
      if Pos.eqb (Qden b') 1 then Num (Qred (Qpower a (Qnum b'))) else NaN
  | _, _ => NaN
  end.

(** Comparisons; any comparison with [NaN] is false. *)
Definition num_ltb (x y : num) : bool :=
  match x, y with Num a, Num b => Qltb a b | _, _ => false end.

Definition num_leb (x y : num) : bool :=
  match x, y with Num a, Num b => Qle_bool a b | _, _ => false end.

Definition num_gtb (x y : num) : bool := num_ltb y x.

(** Strict equality [===] of two numbers. *)
Definition num_eqb (x y : num) : bool :=
  match x, y with Num a, Num b => Qeq_bool a b | _, _ => false end.

(** ** Strings of digits *)

Definition is_ws (c : ascii) : bool :=
  let n := N_of_ascii c in
  ((9 <=? n) && (n <=? 13) || (n =? 32))%N.

Fixpoint skip_ws (s : string) : string :=
  match s with
  | String c r => if is_ws c then skip_ws r else s
  | EmptyString => s
  end.

Fixpoint all_ws (s : string) : bool :=
  match s with
  | String c r => is_ws c && all_ws r
  | EmptyString => true
  end.

(** Value of a character as a digit in the given radix (up to 36). *)
Definition digit_val (radix : N) (c : ascii) : option N :=
  let n := N_of_ascii c in
  let v := if ((48 <=? n) && (n <=? 57))%N then Some (n - 48)%N
           else if ((97 <=? n) && (n <=? 122))%N then Some (n - 87)%N
           else if ((65 <=? n) && (n <=? 90))%N then Some (n - 55)%N
           else None in
  match v with
  | Some d => if (d <? radix)%N then Some d else None
  | None => None
  end.

(** Longest run of digits at the head of [s]: its value on top of [acc], the
    number of digits read, and the rest of the string. *)
Fixpoint read_digits (radix : N) (s : string) (acc : N) (cnt : nat)
  : N * nat * string :=
  match s with
  | String c r =>
      match digit_val radix c with
      | Some d => read_digits radix r (acc * radix + d)%N (S cnt)
      | None => (acc, cnt, s)
      end
  | EmptyString => (acc, cnt, s)
  end.

Definition digit_char (d : N) : ascii := ascii_of_N (48 + d).

(** Decimal digits of [n], most significant first, in front of [acc]. *)
Fixpoint digits_fuel (fuel : nat) (n : N) (acc : string) : string :=
  match fuel with
  | O => acc
  | S f =>
      let acc' := String (digit_char (n mod 10)) acc in
      if (n / 10 =? 0)%N then acc' else digits_fuel f (n / 10) acc'
  end.

Definition digits_of_N (n : N) : string :=
  digits_fuel (S (N.to_nat (N.log2 n))) n "".

(** ** Builtins of the language *)

(** [ExponentPart]: e or E, an optional sign and at least one digit;
    otherwise nothing is consumed. *)
Definition read_exponent (s : string) : Z * string :=
  match s with
  | String c r =>
      if (Ascii.eqb c "e" || Ascii.eqb c "E")%bool then
        let '(neg, r1) :=
          match r with
          | String "+" r' => (false, r')
          | String "-" r' => (true, r')
          | _ => (false, r)
          end in
        let '(v, k, r2) := read_digits 10 r1 0 0 in
        match k with
        | O => (0%Z, s)
        | S _ => ((if neg then - Z.of_N v else Z.of_N v)%Z, r2)
        end
      else (0%Z, s)
  | EmptyString => (0%Z, s)
  end.

(** Longest prefix that is a [StrUnsignedDecimalLiteral] (digits, an optional
    fraction, an optional exponent; the literal Infinity is outside the
    number model and is not recognised), with its value and the rest. *)
Definition str_unsigned_decimal (s : string) : option (Q * string) :=
  let '(iv, ik, r1) := read_digits 10 s 0 0 in
  let '(fv, fk, r2, dot) :=
    match r1 with
    | String "." r => let '(v, k, r') := read_digits 10 r 0 0 in (v, k, r', true)
    | _ => (0%N, O, r1, false)
    end in
  match ik, fk with
  | O, O => None
  | _, _ =>
      let scale := (10 ^ N.of_nat fk)%N in
      let '(e, r3) := read_exponent r2 in
      Some (inject_Z (Z.of_N (iv * scale + fv)) / inject_Z (Z.of_N scale)
            * Qpower (inject_Z 10) e, r3)
  end.

(** [StrDecimalLiteral]: an optional sign in front. *)
Definition str_decimal (s : string) : option (Q * string) :=
  match s with
  | String "+" r => str_unsigned_decimal r
  | String "-" r =>
      match str_unsigned_decimal r with
      | Some (q, r') => Some (- q, r')
      | None => None
      end
  | _ => str_unsigned_decimal s
  end.

(** [parseFloat]: leading white space is skipped, the longest decimal
    literal is read, anything after it is ignored. *)
Definition parseFloat (s : string) : num :=
  match str_decimal (skip_ws s) with
  | Some (q, _) => Num (Qred q)
  | None => NaN
  end.

(** [parseInt] without a radix: white space, a sign, then radix 16 after
    0x or 0X and radix 10 otherwise; the longest run of digits is read. *)
Definition parseInt (s : string) : num :=
  let s0 := skip_ws s in
  let '(neg, s1) :=
    match s0 with
    | String "+" r => (false, r)
    | String "-" r => (true, r)
    | _ => (false, s0)
    end in
  let '(radix, s2) :=
    match s1 with
    | String "0" (String "x" r) => (16%N, r)
    | String "0" (String "X" r) => (16%N, r)
    | _ => (10%N, s1)
    end in
  let '(v, k, _) := read_digits radix s2 0 0 in
  match k with
  | O => NaN
  | S _ => num_of_Z (if neg then - Z.of_N v else Z.of_N v)
  end.

(** [ToNumber] of a string, as the comparison [i < loanTerm] applies it: the
    whole string, white space apart, must be a numeric literal; the empty
    string is 0. *)
Definition non_decimal (s : string) : option (N * string) :=
  let go radix r :=
    let '(v, k, r') := read_digits radix r 0 0 in
    match k with O => None | S _ => Some (v, r') end in
  match s with
  | String "0" (String "x" r) | String "0" (String "X" r) => go 16%N r
  | String "0" (String "o" r) | String "0" (String "O" r) => go 8%N r
  | String "0" (String "b" r) | String "0" (String "B" r) => go 2%N r
  | _ => None
  end.

Definition toNumber (s : string) : num :=
  let s0 := skip_ws s in
  match s0 with
  | EmptyString => Num 0
  | _ =>
      match non_decimal s0 with
      | Some (v, r) => if all_ws r then num_of_Z (Z.of_N v) else NaN
      | None =>
          match str_decimal s0 with
          | Some (q, r) => if all_ws r then Num (Qred q) else NaN
          | None => NaN
          end
      end
  end.

(** [x.toFixed(2)]: the sign, then the integer nearest to 100 |x| (the
    larger one on a tie) written with a point before its last two digits.
    From 10^21 on JavaScript switches to exponent notation, which the model
    does not. *)
Definition toFixed2 (x : num) : string :=
  match x with
  | NaN => "NaN"
  | Num q =>
      let n := Z.to_N (Qfloor (Qabs q * inject_Z 100 + (1 # 2))) in
      let m := digits_of_N (n / 100)
               ++ String "." (String (digit_char (n / 10 mod 10))
                                (String (digit_char (n mod 10)) "")) in
      if Qltb q 0 then String "-" m else m
  end.

(** ** Data of the engine *)

(** One row of the amortization table, as pushed onto [newSchedule]: the
    month is a number, the four amounts are the strings that [toFixed(2)]
    returns. *)
Module Entry.
Record t : Type := mk {
  month : nat;
  interest : string;
  principal : string;
  payment : string;
  remainingBalance : string
}.
End Entry.

(** The object returned by the first [useMemo]. *)
Module Result.
Record t : Type := mk {
  schedule : list Entry.t;
  totalInterest : num;
  totalPayment : num;
  calculatedMthRepayment : num
}.
End Result.

(** One bar group of the chart. *)
Module Year.
Record t : Type := mk {
  name : string;
  Principal : num;
  Interest : num
}.
End Year.

(** The component state read by the two callbacks.  The four text fields
    hold raw values; [monthlyRepayment] is a number (it is set from
    [parseFloat] or from the computed payment). *)
Record Form : Type := mkForm {
  loanAmount : string;
  interestRate : string;
  loanTerm : string;
  balloonPayment : string;
  monthlyRepayment : num;
  overrideRepayment : bool
}.

(** The three variables the schedule loop mutates. *)
Record LoopState : Type := mkLoop {
  remainingBalance : num;
  newSchedule : list Entry.t;
  cumulativeInterest : num
}.

(** ** The amortization callback (lines 23-91) *)

(** The guard of line 29; [true] means the input is rejected. *)
Definition rejected (principal rate termInMonths : num) : bool :=
  isNaN principal || isNaN rate || isNaN termInMonths
  || num_leb principal (Num 0) || num_leb rate (Num 0)
  || num_leb termInMonths (Num 0).

(** Lines 34-40: the payment, adjusted when there is a balloon. *)
Definition compute_pmt (principal rate termInMonths balloon : num) : num :=
  let pmt :=
    num_div
      (num_mul principal
         (num_mul rate (num_pow (num_add (Num 1) rate) termInMonths)))
      (num_sub (num_pow (num_add (Num 1) rate) termInMonths) (Num 1)) in
  if num_gtb balloon (Num 0) then
    let balloonFactor :=
      num_div balloon (num_pow (num_add (Num 1) rate) termInMonths) in
    num_mul (num_sub principal balloonFactor)
      (num_div rate
         (num_sub (Num 1)
            (num_pow (num_add (Num 1) rate) (num_neg termInMonths))))
  else pmt.

(** Line 42. *)
Definition effective_payment (overrideRepayment : bool)
    (monthlyRepayment pmt : num) : num :=
  if overrideRepayment && num_gtb monthlyRepayment (Num 0)
  then monthlyRepayment else pmt.

Section Schedule.

Variables rate termInMonths balloon finalMonthlyRepayment : num.

(** Lines 50-57: interest of the month and the principal paid, capped at
    the balance. *)
Definition interest_for_month (rb : num) : num := num_mul rb rate.

Definition principal_for_month (rb : num) : num :=
  let interestForMonth := interest_for_month rb in
  let principalForMonth := num_sub finalMonthlyRepayment interestForMonth in
  if num_ltb (num_sub rb principalForMonth) (Num 0) then rb
  else principalForMonth.

(** Line 59. *)
Definition balance_after_principal (rb : num) : num :=
  num_sub rb (principal_for_month rb).

(** Lines 62-67: the balloon branch of month [i]. *)
Definition balloon_branch (i : nat) (rb : num) : num :=
  if num_eqb (num_of_nat i) termInMonths && num_gtb rb balloon then rb
  else if num_eqb (num_of_nat i) termInMonths && num_gtb balloon (Num 0)
       then num_sub rb balloon
       else rb.

(** The body of the loop up to the [break] test (lines 50-78). *)
Definition month_step (i : nat) (st : LoopState) : LoopState :=
  let interestForMonth := interest_for_month (remainingBalance st) in
  let principalForMonth := principal_for_month (remainingBalance st) in
  let rb := balloon_branch i (balance_after_principal (remainingBalance st)) in
  {| remainingBalance := rb;
     newSchedule :=
       newSchedule st ++
       [ {| Entry.month := i;
            Entry.interest := toFixed2 interestForMonth;
            Entry.principal := toFixed2 principalForMonth;
            Entry.payment := toFixed2 (num_add principalForMonth interestForMonth);
            Entry.remainingBalance := toFixed2 rb |} ];
     cumulativeInterest := num_add (cumulativeInterest st) interestForMonth |}.

(** The loop condition of line 49. *)
Definition loop_test (i : nat) (st : LoopState) : bool :=
  num_leb (num_of_nat i) termInMonths
  && num_gtb (remainingBalance st) (Num 0).

(** The [for] loop from month [i] on; [fuel] bounds the iterations left. *)
Fixpoint schedule_loop (fuel i : nat) (st : LoopState) : LoopState :=
  match fuel with
  | O => st
  | S fuel' =>
      if loop_test i st then
        let st' := month_step i st in
        if num_leb (remainingBalance st') (Num 0) then st'
        else schedule_loop fuel' (S i) st'
      else st
  end.

End Schedule.

(** The loop runs while [i <= termInMonths], so the integer part of
    [termInMonths] bounds the number of iterations. *)
Definition months_bound (termInMonths : num) : nat :=
  match termInMonths with
  | Num q => Z.to_nat (Qfloor q)
  | NaN => O
  end.

Definition empty_result : Result.t :=
  {| Result.schedule := [];
     Result.totalInterest := Num 0;
     Result.totalPayment := Num 0;
     Result.calculatedMthRepayment := Num 0 |}.

(** The parsed inputs of lines 24-27. *)
Definition principal_of (f : Form) : num := parseFloat (loanAmount f).
Definition rate_of (f : Form) : num :=
  num_div (num_div (parseFloat (interestRate f)) (Num (inject_Z 100)))
          (Num (inject_Z 12)).
Definition termInMonths_of (f : Form) : num :=
  num_mul (parseInt (loanTerm f)) (Num (inject_Z 12)).
Definition balloon_of (f : Form) : num := parseFloat (balloonPayment f).

(** Lines 34-40 and line 42 on the form. *)
Definition pmt_of (f : Form) : num :=
  compute_pmt (principal_of f) (rate_of f) (termInMonths_of f) (balloon_of f).

Definition finalMonthlyRepayment_of (f : Form) : num :=
  effective_payment (overrideRepayment f) (monthlyRepayment f) (pmt_of f).

(** Lines 44-46: the loop variables before the first month. *)
Definition initial_state (principal : num) : LoopState :=
  {| remainingBalance := principal;
     newSchedule := [];
     cumulativeInterest := Num 0 |}.

(** The loop started at month 1 and run for at most [k] iterations. *)
Definition state_after (f : Form) (k : nat) : LoopState :=
  schedule_loop (rate_of f) (termInMonths_of f) (balloon_of f)
    (finalMonthlyRepayment_of f) k 1 (initial_state (principal_of f)).

Definition amortization (f : Form) : Result.t :=
  let principal := principal_of f in
  let rate := rate_of f in
  let termInMonths := termInMonths_of f in
  if rejected principal rate termInMonths then empty_result
  else
    let pmt := pmt_of f in
    let st := state_after f (months_bound termInMonths) in
    let finalTotalPayment := num_add principal (cumulativeInterest st) in
    {| Result.schedule := newSchedule st;
       Result.totalInterest := cumulativeInterest st;
       Result.totalPayment := finalTotalPayment;
       Result.calculatedMthRepayment := pmt |}.

(** The validator is the guard: an input is accepted when it is not
    rejected. *)
Definition accepts (f : Form) : bool :=
  negb (rejected (principal_of f) (rate_of f) (termInMonths_of f)).

(** ** The chart callback (lines 101-123) *)

(** [Array.prototype.slice] with two indices that are not negative. *)
Definition slice {A : Type} (l : list A) (from to : nat) : list A :=
  firstn (to - from) (skipn from l).

Definition year_bar (schedule : list Entry.t) (i : nat) : Year.t :=
  let year := (i + 1)%nat in
  let yearStartMonth := (i * 12)%nat in
  let yearEndMonth := (yearStartMonth + 12)%nat in
  let yearSchedule := slice schedule yearStartMonth yearEndMonth in
  let totalPrincipal :=
    fold_left (fun acc curr => num_add acc (parseFloat (Entry.principal curr)))
      yearSchedule (Num 0) in
  let totalInterest :=
    fold_left (fun acc curr => num_add acc (parseFloat (Entry.interest curr)))
      yearSchedule (Num 0) in
  {| Year.name := "Year " ++ digits_of_N (N.of_nat year);
     Year.Principal := totalPrincipal;
     Year.Interest := totalInterest |}.

(** The [for] loop of line 105 from index [i] on. *)
Fixpoint chart_loop (loanTerm : string) (schedule : list Entry.t)
    (fuel i : nat) (yearlyData : list Year.t) : list Year.t :=
  match fuel with
  | O => yearlyData
  | S fuel' =>
      if num_ltb (num_of_nat i) (toNumber loanTerm) then
        let yearSchedule := slice schedule (i * 12) (i * 12 + 12) in
        if (List.length yearSchedule =? 0)%nat then yearlyData
        else chart_loop loanTerm schedule fuel' (S i)
               (yearlyData ++ [year_bar schedule i])
      else yearlyData
  end.

(** Every iteration but the last consumes at least one row, so one more
    than the number of rows is enough fuel. *)
Definition chartData (schedule : list Entry.t) (loanTerm : string)
  : list Year.t :=
  if (List.length schedule =? 0)%nat then []
  else chart_loop loanTerm schedule (S (List.length schedule)) 0 [].

(** ** Notions used to state the properties *)

(** [x] is the number [q]. *)
Definition is_num (x : num) (q : Q) : Prop :=
  match x with
  | Num a => a == q
  | NaN => False
  end.

(** [x] is NaN or a number that is not positive. *)
Definition not_positive (x : num) : Prop :=
  match x with
  | Num a => a <= 0
  | NaN => True
  end.

(** What passing the guard gives: the three parsed values, all positive,
    the term a whole number of years. *)
Record Accepted (f : Form) (P R : Q) (T : Z) : Prop := {
  acc_principal : parseFloat (loanAmount f) = Num P;
  acc_principal_pos : 0 < P;
  acc_rate : parseFloat (interestRate f) = Num R;
  acc_rate_pos : 0 < R;
  acc_term : parseInt (loanTerm f) = num_of_Z T;
  acc_term_pos : (0 < T)%Z
}.

(** The number of months of a term of [T] years. *)
Definition months_of (T : Z) : nat := (Z.to_nat T * 12)%nat.

(** The override is not in effect (line 42 takes the computed payment). *)
Definition no_override (f : Form) : Prop :=
  overrideRepayment f && num_gtb (monthlyRepayment f) (Num 0) = false.

(** The balloon the engine works with: the parsed amount when it is
    positive, none otherwise. *)
Definition balloon_amount (b : num) : Q :=
  match b with
  | Num B => if Qltb 0 B then B else 0
  | NaN => 0
  end.

(** Balance left after [k] of [n] payments of the computed amount, for a
    principal [P], a monthly rate [r] and a balloon [B]. *)
Definition balance_at (P r : Q) (n : nat) (B : Q) (k : nat) : Q :=
  let G := (1 + r) ^ Z.of_nat n in
  (P * (G - (1 + r) ^ Z.of_nat k) + B * ((1 + r) ^ Z.of_nat k - 1)) / (G - 1).

(** The form with another override setting, or another balloon field. *)
Definition with_override (f : Form) (o : bool) (m : num) : Form :=
  {| loanAmount := loanAmount f;
     interestRate := interestRate f;
     loanTerm := loanTerm f;
     balloonPayment := balloonPayment f;
     monthlyRepayment := m;
     overrideRepayment := o |}.


(** The balance of month [k] once the principal of the month is paid and
    before the balloon branch (the value of [remainingBalance] after
    line 59). *)
Definition balance_before_balloon (f : Form) (k : nat) : num :=
  balance_after_principal (rate_of f) (finalMonthlyRepayment_of f)
    (remainingBalance (state_after f (k - 1))).

(** The scenarios of the specification (section 8). *)
Definition scenario_A : Form :=
  {| loanAmount := "250000"; interestRate := "3.5"; loanTerm := "30";
     balloonPayment := "0"; monthlyRepayment := Num 0;
     overrideRepayment := false |}.

Definition scenario_B : Form :=
  {| loanAmount := "250000"; interestRate := "3.5"; loanTerm := "30";
     balloonPayment := "50000"; monthlyRepayment := Num 0;
     overrideRepayment := false |}.

(** Number of rows pushed after running the loop for at most [k]
    iterations. *)
Definition rows_after (f : Form) (k : nat) : nat :=
  List.length (newSchedule (state_after f k)).

(** The row pushed in month [i] from the loop state [st]. *)
Definition row_of (f : Form) (i : nat) (st : LoopState) : Entry.t :=
  let rb := remainingBalance st in
  let interestForMonth := interest_for_month (rate_of f) rb in
  let principalForMonth :=
    principal_for_month (rate_of f) (finalMonthlyRepayment_of f) rb in
  {| Entry.month := i;
     Entry.interest := toFixed2 interestForMonth;
     Entry.principal := toFixed2 principalForMonth;
     Entry.payment := toFixed2 (num_add principalForMonth interestForMonth);
     Entry.remainingBalance :=
       toFixed2
         (balloon_branch (termInMonths_of f) (balloon_of f) i
            (balance_after_principal (rate_of f) (finalMonthlyRepayment_of f)
               rb)) |}.

(** The balance after at most [k] iterations. *)
Definition balance_after (f : Form) (k : nat) : num :=
  remainingBalance (state_after f k).

(** The interest charged in each month of the schedule, before rounding:
    month [k+1] is charged on the balance left after [k] months. *)
Definition monthly_interest (f : Form) : list num :=
  map (fun k => interest_for_month (rate_of f)
                  (remainingBalance (state_after f k)))
      (seq 0 (List.length (Result.schedule (amortization f)))).




(** The amount [toFixed(2)] prints, in hundredths. *)
Definition cents (q : Q) : Z :=
  let n := Qfloor (Qabs q * inject_Z 100 + (1 # 2)) in
  if Qltb q 0 then (- n)%Z else n.

(** The months of a schedule are 1, 2, ... in order. *)
Definition consecutive_months (s : list Entry.t) : Prop :=
  map Entry.month s = seq 1 (List.length s).






(** *** The specification's yearly aggregation (section 4.4): for
    y = 1 .. termYears, the rows whose month lies in
    [(y-1)*12+1, y*12] are summed; the first empty year stops it. *)
Definition in_year (y : nat) (r : Entry.t) : bool :=
  (((y - 1) * 12 + 1 <=? Entry.month r) && (Entry.month r <=? y * 12))%nat.

Definition sum_of (field : Entry.t -> string) (rows : list Entry.t) : num :=
  fold_left num_add (map (fun r => parseFloat (field r)) rows) (Num 0).

Definition yearly_summary (y : nat) (rows : list Entry.t) : Year.t :=
  {| Year.name := "Year " ++ digits_of_N (N.of_nat y);
     Year.Principal := sum_of Entry.principal rows;
     Year.Interest := sum_of Entry.interest rows |}.

Fixpoint yearly_spec_from (s : list Entry.t) (years y : nat) : list Year.t :=
  match years with
  | O => []
  | S years' =>
      match filter (in_year y) s with
      | [] => []
      | rows => yearly_summary y rows :: yearly_spec_from s years' (S y)
      end
  end.

Definition yearly_spec (s : list Entry.t) (termYears : nat) : list Year.t :=
  yearly_spec_from s termYears 1.

(** ** The amortization callback on binary64 numbers *)

Module Binary64.

(** The double nearest to a rational (ties to even), by the division of
    the specification of floats on the exact numerator and denominator. *)
Definition of_Q (q : Q) : float :=
  match Qnum q with
  | Z0 => PrimFloat.zero
  | Zpos p =>
      SF2Prim (SFdiv prec emax (S754_finite false p 0)
                 (S754_finite false (Qden q) 0))
  | Zneg p =>
      SF2Prim (SFdiv prec emax (S754_finite true p 0)
                 (S754_finite false (Qden q) 0))
  end.

(** The exact value of a finite double. *)
Definition to_Q (x : float) : option Q :=
  match Prim2SF x with
  | S754_zero _ => Some 0
  | S754_finite s m e =>
      Some ((if s then - inject_Z (Zpos m) else inject_Z (Zpos m))
            * Qpower (inject_Z 2) e)
  | _ => None
  end.

Definition of_num (x : num) : float :=
  match x with Num q => of_Q q | NaN => PrimFloat.nan end.

(** The loop counter as a double (exact below 2^53). *)
Definition of_nat (n : nat) : float :=
  PrimFloat.of_uint63 (Uint63.of_Z (Z.of_nat n)).

(** The builtins: the exact value read from the string, rounded to the
    nearest double (a zero is read as +0); the exact value of the double,
    printed. *)
Definition parseFloat (s : string) : float := of_num (parseFloat s).

Definition parseInt (s : string) : float := of_num (parseInt s).

Definition toFixed2 (x : float) : string :=
  match Prim2SF x with
  | S754_nan => "NaN"
  | S754_infinity s => if s then "-Infinity" else "Infinity"
  | _ => match to_Q x with Some q => toFixed2 (Num q) | None => "NaN" end
  end.

Definition isNaN (x : float) : bool := PrimFloat.is_nan x.

(** [Math.pow].  The language leaves its accuracy to the implementation,
    so the engine below takes the function as a parameter; the properties
    ask that its result is within one unit in the last place of a given
    double [v]: [v] itself or one of its two neighbours. *)
Definition faithful_at (pow : float -> float -> float) (x y v : float)
  : Prop :=
  pow x y = v \/ pow x y = PrimFloat.next_down v
  \/ pow x y = PrimFloat.next_up v.

(** [v] is a double nearest to the rational [q]: [q] lies between the
    midpoints of [v] and its two neighbours. *)
Definition nearest_to (q : Q) (v : float) : bool :=
  match to_Q (PrimFloat.next_down v), to_Q v, to_Q (PrimFloat.next_up v) with
  | Some lo, Some mid, Some hi =>
      Qle_bool ((lo + mid) / inject_Z 2) q
      && Qle_bool q ((mid + hi) / inject_Z 2)
  | _, _, _ => false
  end.

(** [g] and [d] are doubles nearest to the exact powers [x^n] and
    [x^(-n)], for a positive whole number [n] given as a double. *)
Definition nearest_powers (x n g d : float) : bool :=
  match to_Q x, to_Q n with
  | Some a, Some b =>
      match Qred b with
      | Qmake (Zpos k) 1 =>
          let V := Qpower a (Zpos k) in
          nearest_to V g && nearest_to (/ V) d
      | _ => false
      end
  | _, _ => false
  end.

(** The growth factor [(1+r)^360] of the scenarios and its inverse, to the
    nearest double. *)
Definition scenario_growth : float := 0x1.6d38838a4e619p+1.
Definition scenario_discount : float := 0x1.66e2623e43771p-2.

(** The function that answers [g] at an exponent that is not negative and
    [d] at a negative one. *)
Definition pow_table (g d : float) (x y : float) : float :=
  if PrimFloat.ltb y 0 then d else g.

Record LoopState : Type := mkLoop {
  remainingBalance : float;
  newSchedule : list Entry.t;
  cumulativeInterest : float
}.

Record Result : Type := mkResult {
  schedule : list Entry.t;
  totalInterest : float;
  totalPayment : float;
  calculatedMthRepayment : float
}.

Section Engine.

Variable pow : float -> float -> float.

Definition rejected (principal rate termInMonths : float) : bool :=
  isNaN principal || isNaN rate || isNaN termInMonths
  || PrimFloat.leb principal 0 || PrimFloat.leb rate 0
  || PrimFloat.leb termInMonths 0.

Definition compute_pmt (principal rate termInMonths balloon : float) : float :=
  let pmt :=
    (principal * (rate * pow (1 + rate) termInMonths)
     / (pow (1 + rate) termInMonths - 1))%float in
  if PrimFloat.ltb 0 balloon then
    let balloonFactor := (balloon / pow (1 + rate) termInMonths)%float in
    ((principal - balloonFactor)
     * (rate / (1 - pow (1 + rate) (- termInMonths))))%float
  else pmt.

Definition effective_payment (overrideRepayment : bool)
    (monthlyRepayment pmt : float) : float :=
  if overrideRepayment && PrimFloat.ltb 0 monthlyRepayment
  then monthlyRepayment else pmt.

Section Schedule.

Variables rate termInMonths balloon finalMonthlyRepayment : float.

Definition month_step (i : nat) (st : LoopState) : LoopState :=
  let interestForMonth := (remainingBalance st * rate)%float in
  let principalForMonth := (finalMonthlyRepayment - interestForMonth)%float in
  let principalForMonth :=
    if PrimFloat.ltb (remainingBalance st - principalForMonth) 0
    then remainingBalance st else principalForMonth in
  let rb := (remainingBalance st - principalForMonth)%float in
  let rb :=
    if PrimFloat.eqb (of_nat i) termInMonths && PrimFloat.ltb balloon rb
    then rb
    else if PrimFloat.eqb (of_nat i) termInMonths && PrimFloat.ltb 0 balloon
         then (rb - balloon)%float
         else rb in
  {| remainingBalance := rb;
     newSchedule :=
       newSchedule st ++
       [ {| Entry.month := i;
            Entry.interest := toFixed2 interestForMonth;
            Entry.principal := toFixed2 principalForMonth;
            Entry.payment := toFixed2 (principalForMonth + interestForMonth);
            Entry.remainingBalance := toFixed2 rb |} ];
     cumulativeInterest := (cumulativeInterest st + interestForMonth)%float |}.

Fixpoint schedule_loop (fuel i : nat) (st : LoopState) : LoopState :=
  match fuel with
  | O => st
  | S fuel' =>
      if PrimFloat.leb (of_nat i) termInMonths
         && PrimFloat.ltb 0 (remainingBalance st) then
        let st' := month_step i st in
        if PrimFloat.leb (remainingBalance st') 0 then st'
        else schedule_loop fuel' (S i) st'
      else st
  end.

End Schedule.

(** The loop runs while [i <= termInMonths]; a term that is not finite is
    outside the model. *)
Definition months_bound (termInMonths : float) : nat :=
  match to_Q termInMonths with
  | Some q => Z.to_nat (Qfloor q)
  | None => O
  end.

Definition principal_of (f : Form) : float := parseFloat (loanAmount f).
Definition rate_of (f : Form) : float :=
  (parseFloat (interestRate f) / 100 / 12)%float.
Definition termInMonths_of (f : Form) : float :=
  (parseInt (loanTerm f) * 12)%float.
Definition balloon_of (f : Form) : float := parseFloat (balloonPayment f).

Definition final_state (f : Form) : LoopState :=
  let pmt :=
    compute_pmt (principal_of f) (rate_of f) (termInMonths_of f)
      (balloon_of f) in
  let finalMonthlyRepayment :=
    effective_payment (overrideRepayment f) (of_num (monthlyRepayment f))
      pmt in
  schedule_loop (rate_of f) (termInMonths_of f) (balloon_of f)
    finalMonthlyRepayment (months_bound (termInMonths_of f)) 1
    {| remainingBalance := principal_of f;
       newSchedule := [];
       cumulativeInterest := 0 |}.

Definition amortization (f : Form) : Result :=
  let principal := principal_of f in
  let rate := rate_of f in
  let termInMonths := termInMonths_of f in
  let balloon := balloon_of f in
  if rejected principal rate termInMonths
  then {| schedule := []; totalInterest := 0; totalPayment := 0;
          calculatedMthRepayment := 0 |}
  else
    let pmt := compute_pmt principal rate termInMonths balloon in
    let st := final_state f in
    {| schedule := newSchedule st;
       totalInterest := cumulativeInterest st;
       totalPayment := (principal + cumulativeInterest st)%float;
       calculatedMthRepayment := pmt |}.

(** What is checked on the two scenarios: the payment with the balloon
    is below the payment without, the schedule with the balloon has 360
    rows, its last row is month 360 and records "50000.00", and the final
    balance is above the balloon. *)
Definition scenario_outcome : bool :=
  let a := amortization scenario_A in
  let b := amortization scenario_B in
  PrimFloat.ltb (calculatedMthRepayment b) (calculatedMthRepayment a)
  && (List.length (schedule b) =? 360)%nat
  && match nth_error (schedule b) 359 with
     | Some row =>
         (Entry.month row =? 360)%nat
         && String.eqb (Entry.remainingBalance row) "50000.00"
     | None => false
     end
  && PrimFloat.ltb (balloon_of scenario_B)
       (remainingBalance (final_state scenario_B)).

End Engine.

End Binary64.

(** ** The rest of the component *)

(** The effect of lines 94-98: while the override is off, the repayment
    state follows the computed payment. *)
Definition sync_repayment (f : Form) : Form :=
  if overrideRepayment f then f
  else with_override f (overrideRepayment f)
         (Result.calculatedMthRepayment (amortization f)).

(** The override checkbox (line 221). *)
Definition toggle_override (f : Form) : Form :=
  with_override f (negb (overrideRepayment f)) (monthlyRepayment f).

(** What the repayment input shows (line 227) and what typing into it
    stores (line 228). *)
Definition repayment_field (f : Form) : string :=
  if num_gtb (monthlyRepayment f) (Num 0)
  then toFixed2 (monthlyRepayment f) else "0.00".

Definition edit_repayment (f : Form) (value : string) : Form :=
  with_override f (overrideRepayment f) (parseFloat value).

(** The table shows the hint of line 296 instead of rows. *)
Definition shows_hint (f : Form) : bool :=
  (List.length (Result.schedule (amortization f)) =? 0)%nat.

(** ** More notions used to state the properties *)

(** The sum of a list of numbers, as [reduce] computes it from 0. *)
Definition total (l : list num) : num := fold_left num_add l (Num 0).


(** The number of years the chart loop allows: the indices [i = 0, 1, ...]
    with [i < loanTerm]. *)
Definition years_allowed (loanTerm : string) : nat :=
  match toNumber loanTerm with
  | Num q => Z.to_nat (Qceiling q)
  | NaN => O
  end.

(** The number of years a schedule of [rows] rows starts. *)
Definition years_started (rows : nat) : nat := ((rows + 11) / 12)%nat.

(** A number in lowest terms, as every result of an operation or a parse
    is: adding 0 gives it back. *)
Definition reduced (x : num) : Prop := num_add x (Num 0) = x.

(** * Facts about the number model *)

(** Simplification that leaves the rational operations folded. *)
Ltac nsimpl :=
  cbn -[Qeq Qle Qlt Qred Qplus Qminus Qmult Qdiv Qopp Qinv Qpower Qabs Qfloor
        Qltb Qle_bool Qeq_bool inject_Z].

Tactic Notation "nsimpl" "in" hyp(H) :=
  cbn -[Qeq Qle Qlt Qred Qplus Qminus Qmult Qdiv Qopp Qinv Qpower Qabs Qfloor
        Qltb Qle_bool Qeq_bool inject_Z] in H.


Lemma Qltb_lt (a b : Q) : Qltb a b = true <-> a < b.
Proof.
  unfold Qltb. rewrite negb_true_iff.
  split; intro H.
  - apply Qnot_le_lt. intro L. apply Qle_bool_iff in L. congruence.
  - destruct (Qle_bool b a) eqn:E; [|reflexivity].
    apply Qle_bool_iff in E. lra.
Qed.

Lemma Qltb_ge (a b : Q) : Qltb a b = false <-> b <= a.
Proof.
  unfold Qltb. rewrite negb_false_iff. apply Qle_bool_iff.
Qed.

Lemma Qle_bool_gt (a b : Q) : Qle_bool a b = false <-> b < a.
Proof.
  split; intro H.
  - apply Qnot_le_lt. intro L. apply Qle_bool_iff in L. congruence.
  - destruct (Qle_bool a b) eqn:E; [|reflexivity].
    apply Qle_bool_iff in E. lra.
Qed.

Lemma Qeq_bool_false (a b : Q) : Qeq_bool a b = false <-> ~ a == b.
Proof.
  split; intro H.
  - intro E. apply Qeq_bool_iff in E. congruence.
  - destruct (Qeq_bool a b) eqn:E; [|reflexivity].
    apply Qeq_bool_iff in E. contradiction.
Qed.

#[global] Instance Qltb_comp : Proper (Qeq ==> Qeq ==> eq) Qltb.
Proof. intros a a' Ha b b' Hb. unfold Qltb. now rewrite Ha, Hb. Qed.

Lemma is_num_Num (a q : Q) : is_num (Num a) q <-> a == q.
Proof. reflexivity. Qed.

Lemma is_num_inv (x : num) (q : Q) : is_num x q -> exists a, x = Num a /\ a == q.
Proof. destruct x; simpl; [tauto | eauto]. Qed.

Lemma is_num_eq (x : num) (p q : Q) : is_num x p -> p == q -> is_num x q.
Proof. destruct x; simpl; [tauto | intros; etransitivity; eauto]. Qed.

#[global] Instance is_num_comp : Proper (eq ==> Qeq ==> iff) is_num.
Proof.
  intros x ? <- p q E. split; intro H; eapply is_num_eq; eauto.
  now symmetry.
Qed.

Lemma is_num_add (x y : num) (a b : Q) :
  is_num x a -> is_num y b -> is_num (num_add x y) (a + b).
Proof.
  destruct x as [|p], y as [|q]; nsimpl; try tauto. intros Ha Hb. now rewrite Qred_correct, Ha, Hb.
Qed.

Lemma is_num_sub (x y : num) (a b : Q) :
  is_num x a -> is_num y b -> is_num (num_sub x y) (a - b).
Proof.
  destruct x as [|p], y as [|q]; nsimpl; try tauto. intros Ha Hb. now rewrite Qred_correct, Ha, Hb.
Qed.

Lemma is_num_mul (x y : num) (a b : Q) :
  is_num x a -> is_num y b -> is_num (num_mul x y) (a * b).
Proof.
  destruct x as [|p], y as [|q]; nsimpl; try tauto. intros Ha Hb. now rewrite Qred_correct, Ha, Hb.
Qed.

Lemma is_num_neg (x : num) (a : Q) : is_num x a -> is_num (num_neg x) (- a).
Proof.
  destruct x as [|p]; nsimpl; try tauto. intros Ha. now rewrite Qred_correct, Ha.
Qed.

Lemma is_num_div (x y : num) (a b : Q) :
  is_num x a -> is_num y b -> ~ b == 0 -> is_num (num_div x y) (a / b).
Proof.
  destruct x as [|p], y as [|q]; nsimpl; try tauto. intros Ha Hb Hnz.
  destruct (Qeq_bool q 0) eqn:E.
  - apply Qeq_bool_iff in E. rewrite Hb in E. contradiction.
  - nsimpl. rewrite Qred_correct, Ha, Hb. reflexivity.
Qed.

Lemma Qred_inject_Z (z : Z) : Qred (inject_Z z) = inject_Z z.
Proof.
  unfold inject_Z, Qred.
  pose proof (Z.ggcd_gcd z 1) as G.
  pose proof (Z.ggcd_correct_divisors z 1) as D.
  destruct (Z.ggcd z 1%Z) as [g [a b]]. simpl in *.
  rewrite Z.gcd_1_r in G. subst g. destruct D as [-> D].
  rewrite Z.mul_1_l in D. subst b. f_equal. now destruct a.
Qed.

Lemma is_num_pow (x y : num) (a : Q) (z : Z) :
  is_num x a -> is_num y (inject_Z z) -> is_num (num_pow x y) (a ^ z).
Proof.
  destruct x as [|p], y as [|q]; nsimpl; try tauto. intros Ha Hb.
  apply Qred_complete in Hb. rewrite Qred_inject_Z in Hb. rewrite Hb.
  cbn [inject_Z Qden Qnum Pos.eqb is_num].
  rewrite Qred_correct, Ha. reflexivity.
Qed.

Lemma num_ltb_spec (x y : num) (a b : Q) :
  is_num x a -> is_num y b -> num_ltb x y = Qltb a b.
Proof.
  destruct x as [|p], y as [|q]; nsimpl; try tauto. intros Ha Hb. now rewrite Ha, Hb.
Qed.


Lemma num_eqb_spec (x y : num) (a b : Q) :
  is_num x a -> is_num y b -> num_eqb x y = Qeq_bool a b.
Proof.
  destruct x as [|p], y as [|q]; nsimpl; try tauto. intros Ha Hb.
  destruct (Qeq_bool p q) eqn:E, (Qeq_bool a b) eqn:E'; try reflexivity.
  - apply Qeq_bool_iff in E. apply Qeq_bool_false in E'. exfalso. apply E'.
    rewrite <- Ha, <- Hb. exact E.
  - apply Qeq_bool_iff in E'. apply Qeq_bool_false in E. exfalso. apply E.
    rewrite Ha, Hb. exact E'.
Qed.

Lemma num_gtb_true (x y : num) :
  num_gtb x y = true -> exists a b, x = Num a /\ y = Num b /\ b < a.
Proof.
  unfold num_gtb. destruct x, y; nsimpl; try discriminate.
  intro H. apply Qltb_lt in H. eauto.
Qed.

Lemma num_leb_true (x y : num) :
  num_leb x y = true -> exists a b, x = Num a /\ y = Num b /\ a <= b.
Proof.
  destruct x, y; nsimpl; try discriminate.
  intro H. apply Qle_bool_iff in H. eauto.
Qed.

Lemma num_leb_gtb (x y : num) : num_leb x y = true -> num_gtb x y = false.
Proof.
  intro H. apply num_leb_true in H. destruct H as (a & b & -> & -> & H).
  unfold num_gtb. nsimpl. now apply Qltb_ge.
Qed.

(** * The schedule loop, one month at a time *)

Section LoopFacts.

Variables rate termInMonths balloon finalMonthlyRepayment : num.

Local Abbreviation step := (month_step rate termInMonths balloon finalMonthlyRepayment).
Local Abbreviation test := (loop_test termInMonths).
Local Abbreviation loop := (schedule_loop rate termInMonths balloon finalMonthlyRepayment).

Lemma month_step_rows (i : nat) (st : LoopState) :
  List.length (newSchedule (step i st)) = S (List.length (newSchedule st)).
Proof.
  unfold month_step. cbn [newSchedule]. rewrite length_app. simpl. lia.
Qed.

Lemma break_stops (i : nat) (st : LoopState) :
  num_leb (remainingBalance st) (Num 0) = true -> test i st = false.
Proof.
  intro H. unfold loop_test. rewrite (num_leb_gtb _ _ H). apply andb_false_r.
Qed.

(** One more unit of fuel runs one more month at the end, provided every
    earlier unit was used and the loop test still holds. *)
Lemma schedule_loop_end (fuel i : nat) (st : LoopState) :
  loop (S fuel) i st =
  let st' := loop fuel i st in
  if (List.length (newSchedule st') =? List.length (newSchedule st) + fuel)%nat
     && test (i + fuel) st'
  then step (i + fuel) st' else st'.
Proof.
  revert i st. induction fuel as [|fuel IH]; intros i st.
  - cbn [schedule_loop]. cbv zeta. rewrite !Nat.add_0_r, Nat.eqb_refl.
    cbn [andb]. destruct (test i st); [|reflexivity].
    now destruct (num_leb _ _).
  - change (loop (S (S fuel)) i st)
      with (if test i st
            then if num_leb (remainingBalance (step i st)) (Num 0)
                 then step i st else loop (S fuel) (S i) (step i st)
            else st).
    change (loop (S fuel) i st)
      with (if test i st
            then if num_leb (remainingBalance (step i st)) (Num 0)
                 then step i st else loop fuel (S i) (step i st)
            else st).
    cbv zeta. destruct (test i st) eqn:T.
    + destruct (num_leb (remainingBalance (step i st)) (Num 0)) eqn:B.
      * rewrite month_step_rows.
        destruct fuel as [|fuel].
        -- rewrite (break_stops _ _ B), andb_false_r. reflexivity.
        -- replace (S (List.length (newSchedule st))
                    =? List.length (newSchedule st) + S (S fuel))%nat
             with false; [reflexivity|].
           symmetry. apply Nat.eqb_neq. lia.
      * rewrite IH. cbv zeta. rewrite month_step_rows.
        replace (S i + fuel)%nat with (i + S fuel)%nat by lia.
        replace (S (List.length (newSchedule st)) + fuel)%nat
          with (List.length (newSchedule st) + S fuel)%nat by lia.
        reflexivity.
    + replace (List.length (newSchedule st)
               =? List.length (newSchedule st) + S fuel)%nat
        with false; [reflexivity|].
      symmetry. apply Nat.eqb_neq. lia.
Qed.

End LoopFacts.

Section Run.

Variable f : Form.

Local Abbreviation step :=
  (month_step (rate_of f) (termInMonths_of f) (balloon_of f)
     (finalMonthlyRepayment_of f)).
Local Abbreviation test := (loop_test (termInMonths_of f)).

Lemma state_after_0 : state_after f 0 = initial_state (principal_of f).
Proof. reflexivity. Qed.

Lemma rows_after_0 : rows_after f 0 = O.
Proof. reflexivity. Qed.

(** The state after at most [k+1] iterations, from the state after at most
    [k]: a further month is run when all [k] earlier ones were and the loop
    test holds. *)
Lemma state_after_S (k : nat) :
  state_after f (S k) =
  if (rows_after f k =? k)%nat && test (S k) (state_after f k)
  then step (S k) (state_after f k) else state_after f k.
Proof.
  unfold state_after at 1. rewrite schedule_loop_end. reflexivity.
Qed.

Lemma rows_after_le (k : nat) : (rows_after f k <= k)%nat.
Proof.
  induction k as [|k IH]; [unfold rows_after; simpl; lia|].
  unfold rows_after in *. rewrite state_after_S.
  destruct (_ && _); [rewrite month_step_rows|]; lia.
Qed.

(** When month [k+1] was run, so were all the months before it. *)
Lemma active_step (k : nat) :
  rows_after f (S k) = S k ->
  rows_after f k = k
  /\ test (S k) (state_after f k) = true
  /\ state_after f (S k) = step (S k) (state_after f k).
Proof.
  intro H. pose proof (rows_after_le k) as L.
  unfold rows_after in H. rewrite state_after_S in *.
  destruct (rows_after f k =? k)%nat eqn:E; cbn [andb] in *.
  - apply Nat.eqb_eq in E. destruct (test _ _).
    + auto.
    + unfold rows_after in E. lia.
  - unfold rows_after in L. lia.
Qed.


(** The loop stops for good: the final state is the state after exactly as
    many months as there are rows. *)
Lemma state_after_rows (k : nat) :
  state_after f k = state_after f (rows_after f k)
  /\ rows_after f (rows_after f k) = rows_after f k.
Proof.
  induction k as [|k [IH1 IH2]]; [split; reflexivity|].
  destruct (Nat.eq_dec (rows_after f (S k)) (S k)) as [E|E].
  - rewrite E. auto.
  - assert (state_after f (S k) = state_after f k) as Same.
    { rewrite state_after_S.
      destruct (_ && _) eqn:C; [|reflexivity].
      exfalso. apply E. unfold rows_after. rewrite state_after_S, C.
      rewrite month_step_rows. apply andb_prop in C.
      destruct C as [C _]. apply Nat.eqb_eq in C. now rewrite <- C at 2. }
    unfold rows_after at 1 3 4. rewrite Same.
    fold (rows_after f k). auto.
Qed.

Lemma month_step_schedule (i : nat) (st : LoopState) :
  newSchedule (step i st) = (newSchedule st ++ [row_of f i st])%list.
Proof. reflexivity. Qed.

(** The rows of the schedule, month by month. *)
Lemma schedule_rows (k : nat) :
  newSchedule (state_after f k) =
  map (fun j => row_of f (S j) (state_after f j)) (seq 0 (rows_after f k)).
Proof.
  induction k as [|k IH]; [reflexivity|].
  unfold rows_after. rewrite state_after_S.
  destruct (_ && _) eqn:C; [|exact IH].
  apply andb_prop in C. destruct C as [C _]. apply Nat.eqb_eq in C.
  rewrite month_step_rows, month_step_schedule.
  fold (rows_after f k). rewrite IH, C, seq_S, map_app. reflexivity.
Qed.

Lemma schedule_consecutive (k : nat) :
  consecutive_months (newSchedule (state_after f k)).
Proof.
  unfold consecutive_months. rewrite schedule_rows, length_map, length_seq.
  rewrite map_map. cbn [row_of Entry.month].
  rewrite <- seq_shift. reflexivity.
Qed.

(** No month is run past [termInMonths]. *)
Lemma rows_after_bound (k : nat) (n : Q) :
  is_num (termInMonths_of f) n -> 0 <= n ->
  inject_Z (Z.of_nat (rows_after f k)) <= n.
Proof.
  intros Hn Hpos. destruct (state_after_rows k) as [_ A].
  destruct (rows_after f k) as [|m]; [exact Hpos|].
  apply active_step in A. destruct A as (_ & T & _).
    unfold loop_test in T. apply andb_prop in T. destruct T as [T _].
  apply num_leb_true in T. destruct T as (a & b & Ha & Hb & L).
  rewrite Hb in Hn. nsimpl in Hn. unfold num_of_nat, num_of_Z in Ha.
  injection Ha as <-. now rewrite <- Hn.
Qed.

End Run.

(** * The validity guard *)

Ltac break_match :=
  match goal with
  | |- context [match ?x with _ => _ end] => destruct x eqn:?
  end.

Lemma parseInt_cases (s : string) :
  parseInt s = NaN \/ exists z : Z, parseInt s = num_of_Z z.
Proof.
  unfold parseInt. repeat break_match; eauto.
Qed.

Lemma not_positive_spec (x : num) :
  not_positive x <-> isNaN x || num_leb x (Num 0) = true.
Proof.
  destruct x as [|a]; nsimpl; [tauto|]. symmetry. apply Qle_bool_iff.
Qed.

Lemma positive_or_not (x : num) :
  not_positive x \/ exists a, x = Num a /\ 0 < a.
Proof.
  destruct x as [|a]; [left; exact I|].
  destruct (Qlt_le_dec 0 a); [right; eauto | left; assumption].
Qed.

Lemma positive_not (x : num) (a : Q) : x = Num a -> 0 < a -> ~ not_positive x.
Proof. intros -> H N. nsimpl in N. lra. Qed.

(** Dividing by 100 and by 12, or multiplying by 12, keeps NaN and the
    sign. *)
Lemma rate_not_positive (f : Form) :
  not_positive (rate_of f) <-> not_positive (parseFloat (interestRate f)).
Proof.
  unfold rate_of. destruct (parseFloat (interestRate f)) as [|a]; [tauto|].
  unfold num_div.
  change (Qeq_bool (inject_Z 100) 0) with false.
  change (Qeq_bool (inject_Z 12) 0) with false. unfold not_positive.
  rewrite !Qred_correct. change (inject_Z 100) with 100.
  change (inject_Z 12) with 12. split; intro H.
  - assert (a == a / 100 / 12 * 1200) as -> by field. lra.
  - assert (a / 100 / 12 == a * (1 # 1200)) as -> by field. lra.
Qed.

Lemma term_not_positive (f : Form) :
  not_positive (termInMonths_of f) <-> not_positive (parseInt (loanTerm f)).
Proof.
  unfold termInMonths_of. destruct (parseInt (loanTerm f)) as [|a]; [tauto|].
  unfold num_mul, not_positive. rewrite Qred_correct.
  change (inject_Z 12) with 12. split; intro H; lra.
Qed.

Lemma rejected_spec (f : Form) :
  rejected (principal_of f) (rate_of f) (termInMonths_of f) = true <->
  not_positive (parseFloat (loanAmount f))
  \/ not_positive (parseFloat (interestRate f))
  \/ not_positive (parseInt (loanTerm f)).
Proof.
  rewrite <- rate_not_positive, <- term_not_positive.
  rewrite !not_positive_spec. unfold rejected, principal_of.
  rewrite !orb_true_iff. tauto.
Qed.

Lemma accepts_spec (f : Form) :
  accepts f = true <-> exists P R T, Accepted f P R T.
Proof.
  unfold accepts. rewrite negb_true_iff. split.
  - intro H.
    destruct (positive_or_not (parseFloat (loanAmount f))) as [N|(P & HP & Ppos)];
      [assert (rejected (principal_of f) (rate_of f) (termInMonths_of f) = true)
         by (apply rejected_spec; tauto); congruence|].
    destruct (positive_or_not (parseFloat (interestRate f))) as [N|(R & HR & Rpos)];
      [assert (rejected (principal_of f) (rate_of f) (termInMonths_of f) = true)
         by (apply rejected_spec; tauto); congruence|].
    destruct (positive_or_not (parseInt (loanTerm f))) as [N|(t & HT & Tpos)];
      [assert (rejected (principal_of f) (rate_of f) (termInMonths_of f) = true)
         by (apply rejected_spec; tauto); congruence|].
    destruct (parseInt_cases (loanTerm f)) as [E|[T E]]; [congruence|].
    exists P, R, T. split; try assumption.
    rewrite E in HT. injection HT as <-.
    apply Qnot_le_lt in Tpos || idtac.
    unfold Qlt in Tpos. simpl in Tpos. lia.
  - intros (P & R & T & [HP Ppos HR Rpos HT Tpos]).
    destruct (rejected _ _ _) eqn:E; [|reflexivity].
    apply rejected_spec in E. exfalso. destruct E as [E|[E|E]].
    + now apply (positive_not _ _ HP Ppos).
    + now apply (positive_not _ _ HR Rpos).
    + unfold num_of_Z in HT.
      apply (positive_not _ _ HT); [|assumption].
      unfold Qlt. simpl. lia.
Qed.

(** * Inputs that pass the guard *)

Lemma num_of_nat_leb (i n : nat) :
  num_leb (num_of_nat i) (num_of_nat n) = (i <=? n)%nat.
Proof.
  unfold num_of_nat, num_of_Z, num_leb.
  destruct (i <=? n)%nat eqn:E.
  - apply Qle_bool_iff. rewrite <- Zle_Qle. apply Nat.leb_le in E. lia.
  - apply Qle_bool_gt. rewrite <- Zlt_Qlt. apply Nat.leb_gt in E. lia.
Qed.

Lemma num_of_nat_eqb (i n : nat) :
  num_eqb (num_of_nat i) (num_of_nat n) = (i =? n)%nat.
Proof.
  unfold num_of_nat, num_of_Z, num_eqb.
  destruct (i =? n)%nat eqn:E.
  - apply Qeq_bool_iff. apply Nat.eqb_eq in E. now subst.
  - apply Qeq_bool_false. intro H.
    apply (proj1 (inject_Z_injective _ _)) in H.
    apply Nat.eqb_neq in E. lia.
Qed.

Section AcceptedFacts.

Variables (f : Form) (P R : Q) (T : Z).
Hypothesis A : Accepted f P R T.

Local Abbreviation r := (R / inject_Z 100 / inject_Z 12).
Local Abbreviation n := (months_of T).

Lemma accepted_principal : principal_of f = Num P.
Proof. unfold principal_of. now destruct A as [HP _ _ _ _ _]. Qed.

Lemma principal_pos : 0 < P.
Proof. now destruct A as [_ Ppos _ _ _ _]. Qed.

Lemma accepted_rate : is_num (rate_of f) r.
Proof.
  unfold rate_of. destruct A as [_ _ -> _ _ _].
  repeat apply is_num_div; try reflexivity; discriminate.
Qed.

Lemma rate_pos : 0 < r.
Proof.
  destruct A as [_ _ _ Rpos _ _].
  change (inject_Z 100) with 100. change (inject_Z 12) with 12.
  assert (R / 100 / 12 == R * (1 # 1200)) as -> by field. lra.
Qed.

Lemma accepted_term : termInMonths_of f = num_of_nat n.
Proof.
  unfold termInMonths_of. destruct A as [_ _ _ _ -> Tpos].
  unfold num_of_nat, num_of_Z, num_mul. f_equal.
  rewrite <- (Qred_inject_Z (Z.of_nat n)). apply Qred_complete.
  rewrite <- inject_Z_mult. unfold months_of.
  rewrite Nat2Z.inj_mul, Z2Nat.id by lia. reflexivity.
Qed.

Lemma months_pos : (12 <= n)%nat.
Proof. destruct A as [_ _ _ _ _ Tpos]. unfold months_of. lia. Qed.

Lemma accepted_bound : months_bound (termInMonths_of f) = n.
Proof.
  rewrite accepted_term. unfold months_bound, num_of_nat, num_of_Z.
  rewrite Qfloor_Z. apply Nat2Z.id.
Qed.

Lemma accepted_not_rejected :
  rejected (principal_of f) (rate_of f) (termInMonths_of f) = false.
Proof.
  assert (accepts f = true) as H by (apply accepts_spec; eauto).
  unfold accepts in H. now apply negb_true_iff in H.
Qed.

Lemma accepted_result :
  amortization f =
  {| Result.schedule := newSchedule (state_after f n);
     Result.totalInterest := cumulativeInterest (state_after f n);
     Result.totalPayment :=
       num_add (principal_of f) (cumulativeInterest (state_after f n));
     Result.calculatedMthRepayment := pmt_of f |}.
Proof.
  unfold amortization. rewrite accepted_not_rejected, accepted_bound.
  reflexivity.
Qed.

(** The growth factor [(1+r)^n] exceeds 1, so neither divisor of the
    payment formulas is zero. *)
Lemma growth_gt_1 : 1 < (1 + r) ^ Z.of_nat n.
Proof.
  pose proof rate_pos. pose proof months_pos.
  apply Qpower_1_lt; [lra | lia].
Qed.

Lemma pmt_divisors_positive :
  0 < (1 + r) ^ Z.of_nat n - 1 /\ 0 < 1 - (1 + r) ^ (- Z.of_nat n).
Proof.
  pose proof growth_gt_1 as G. split; [lra|].
  rewrite Qpower_opp.
  assert (/ (1 + r) ^ Z.of_nat n < 1); [|lra].
  setoid_replace 1 with (/ 1) at 2 by reflexivity.
  apply -> Qinv_lt_contravar; lra.
Qed.

Lemma growth_is_num :
  is_num (num_pow (num_add (Num 1) (rate_of f)) (termInMonths_of f))
         ((1 + r) ^ Z.of_nat n).
Proof.
  apply is_num_pow.
  - apply is_num_add; [reflexivity | exact accepted_rate].
  - rewrite accepted_term. reflexivity.
Qed.

(** The payment without a balloon. *)
Lemma base_pmt_is_num (b : num) :
  num_gtb b (Num 0) = false ->
  is_num (compute_pmt (principal_of f) (rate_of f) (termInMonths_of f) b)
         (P * (r * (1 + r) ^ Z.of_nat n) / ((1 + r) ^ Z.of_nat n - 1)).
Proof.
  intro Hb. unfold compute_pmt. rewrite Hb.
  pose proof pmt_divisors_positive as [D _].
  apply is_num_div.
  - apply is_num_mul; [rewrite accepted_principal; reflexivity|].
    apply is_num_mul; [exact accepted_rate | exact growth_is_num].
  - apply is_num_sub; [exact growth_is_num | reflexivity].
  - lra.
Qed.

(** The payment with a balloon [B > 0]. *)
Lemma balloon_pmt_is_num (B : Q) :
  0 < B ->
  is_num
    (compute_pmt (principal_of f) (rate_of f) (termInMonths_of f) (Num B))
    ((P - B / (1 + r) ^ Z.of_nat n)
     * (r / (1 - (1 + r) ^ (- Z.of_nat n)))).
Proof.
  intro Hb. unfold compute_pmt.
  replace (num_gtb (Num B) (Num 0)) with true
    by (symmetry; now apply Qltb_lt).
  pose proof pmt_divisors_positive as [_ D]. pose proof growth_gt_1 as G.
  apply is_num_mul.
  - apply is_num_sub; [rewrite accepted_principal; reflexivity|].
    apply is_num_div; [reflexivity | exact growth_is_num | lra].
  - apply is_num_div; [exact accepted_rate | | lra].
    apply is_num_sub; [reflexivity|].
    apply is_num_pow.
    + apply is_num_add; [reflexivity | exact accepted_rate].
    + rewrite accepted_term. unfold num_of_nat, num_of_Z.
      apply is_num_neg with (a := inject_Z (Z.of_nat n)) (x := Num _).
      reflexivity.
Qed.

(** Both formulas are the same closed form
    [r (P (1+r)^n - B) / ((1+r)^n - 1)], with [B = 0] when there is no
    balloon. *)
Lemma pmt_closed_form :
  is_num (pmt_of f)
    (r * (P * (1 + r) ^ Z.of_nat n - balloon_amount (balloon_of f))
     / ((1 + r) ^ Z.of_nat n - 1)).
Proof.
  unfold pmt_of. pose proof pmt_divisors_positive as [D1 D2].
  pose proof growth_gt_1 as G.
  destruct (num_gtb (balloon_of f) (Num 0)) eqn:E.
  - apply num_gtb_true in E. destruct E as (B & z & HB & Hz & Bpos).
    injection Hz as <-. rewrite HB. unfold balloon_amount.
    replace (Qltb 0 B) with true by (symmetry; now apply Qltb_lt).
    eapply is_num_eq; [apply balloon_pmt_is_num; assumption|].
    rewrite Qpower_opp. field. split; lra.
  - eapply is_num_eq; [apply base_pmt_is_num; assumption|].
    assert (balloon_amount (balloon_of f) == 0) as ->.
    { unfold balloon_amount. destruct (balloon_of f) as [|B]; [reflexivity|].
      unfold num_gtb, num_ltb in E. rewrite E. reflexivity. }
    field. lra.
Qed.

End AcceptedFacts.

(** * One month of the loop on the rationals *)

Lemma interest_spec (rate rb : num) (r b : Q) :
  is_num rate r -> is_num rb b -> is_num (interest_for_month rate rb) (b * r).
Proof. intros Hr Hb. now apply is_num_mul. Qed.

(** The principal paid: the payment less the interest, or the whole balance
    when that would overpay. *)
Lemma principal_spec (rate eff rb : num) (r e b : Q) :
  is_num rate r -> is_num eff e -> is_num rb b ->
  is_num (principal_for_month rate eff rb)
         (if Qltb (b - (e - b * r)) 0 then b else e - b * r).
Proof.
  intros Hr He Hb. unfold principal_for_month.
  assert (is_num (num_sub eff (interest_for_month rate rb)) (e - b * r)) as Hp
    by (apply is_num_sub; [assumption | now apply interest_spec]).
  rewrite (num_ltb_spec _ _ (b - (e - b * r)) 0);
    [|now apply is_num_sub | reflexivity].
  now destruct (Qltb _ _).
Qed.

(** The balance after the principal is paid never goes below zero. *)
Lemma balance_after_principal_spec (rate eff rb : num) (r e b : Q) :
  is_num rate r -> is_num eff e -> is_num rb b ->
  is_num (balance_after_principal rate eff rb)
         (if Qltb (b - (e - b * r)) 0 then 0 else b - (e - b * r)).
Proof.
  intros Hr He Hb. unfold balance_after_principal.
  pose proof (principal_spec _ _ _ _ _ _ Hr He Hb) as Hp.
  destruct (Qltb _ _).
  - eapply is_num_eq; [apply is_num_sub; eassumption | ring].
  - now apply is_num_sub.
Qed.


(** The balloon branch on a term that is a whole number of months. *)
Lemma balloon_branch_spec (n i : nat) (balloon x : num) :
  balloon_branch (num_of_nat n) balloon i x =
  if (i =? n)%nat then
    if num_gtb x balloon then x
    else if num_gtb balloon (Num 0) then num_sub x balloon else x
  else x.
Proof.
  unfold balloon_branch. rewrite num_of_nat_eqb.
  destruct (i =? n)%nat; reflexivity.
Qed.


(** * The schedule when the computed payment is used *)

Section ClosedForm.

Variables (f : Form) (P R : Q) (T : Z).
Hypothesis A : Accepted f P R T.
Hypothesis NoOverride : no_override f.

Local Abbreviation r := (R / inject_Z 100 / inject_Z 12).
Local Abbreviation n := (months_of T).
Local Abbreviation B := (balloon_amount (balloon_of f)).
Local Abbreviation G := ((1 + r) ^ Z.of_nat n).

Local Abbreviation balance_at := (balance_at P r n B).

Lemma payment_is_pmt : finalMonthlyRepayment_of f = pmt_of f.
Proof.
  unfold finalMonthlyRepayment_of, effective_payment.
  unfold no_override in NoOverride. now rewrite NoOverride.
Qed.

Lemma balloon_amount_nonneg : 0 <= B.
Proof.
  unfold balloon_amount. destruct (balloon_of f) as [|b]; [lra|].
  destruct (Qltb 0 b) eqn:E; [apply Qltb_lt in E|]; lra.
Qed.

Lemma power_succ (k : nat) :
  (1 + r) ^ Z.of_nat (S k) == (1 + r) ^ Z.of_nat k * (1 + r).
Proof.
  pose proof (rate_pos f P R T A).
  rewrite Nat2Z.inj_succ. unfold Z.succ.
  rewrite Qpower_plus by lra. reflexivity.
Qed.

Lemma power_ge_1 (k : nat) : 1 <= (1 + r) ^ Z.of_nat k.
Proof.
  pose proof (rate_pos f P R T A). apply Qpower_1_le; [lra | lia].
Qed.

Lemma power_lt (k : nat) : (k < n)%nat -> (1 + r) ^ Z.of_nat k < G.
Proof.
  pose proof (rate_pos f P R T A). intro L.
  apply Qpower_lt_compat_l; [lia | lra].
Qed.

Lemma balance_at_pos (k : nat) : (k < n)%nat -> 0 < balance_at k.
Proof.
  intro L. unfold balance_at.
  pose proof (power_lt k L). pose proof (power_ge_1 k).
  pose proof balloon_amount_nonneg. pose proof (principal_pos f P R T A).
  pose proof (growth_gt_1 f P R T A).
  apply Qlt_shift_div_l; [lra|]. nra.
Qed.

Lemma balance_at_nonneg (k : nat) : (k <= n)%nat -> 0 <= balance_at k.
Proof.
  intro L. destruct (Nat.eq_dec k n) as [->|N].
  - unfold balance_at. pose proof (growth_gt_1 f P R T A).
    pose proof balloon_amount_nonneg.
    apply Qle_shift_div_l; [lra|]. nra.
  - apply Qlt_le_weak, balance_at_pos. lia.
Qed.

Lemma balance_at_end : balance_at n == B.
Proof.
  unfold balance_at. pose proof (growth_gt_1 f P R T A). field. lra.
Qed.

(** One payment: the balance grows by the interest and drops by the
    payment. *)
Lemma balance_at_succ (k : nat) :
  balance_at (S k) ==
  balance_at k
  - (r * (P * G - B) / (G - 1) - balance_at k * r).
Proof.
  unfold balance_at. rewrite power_succ.
  pose proof (growth_gt_1 f P R T A). field. lra.
Qed.

(** The balloon branch of the last month brings the balance to zero. *)
Lemma final_balloon_branch (x : num) :
  is_num x B ->
  is_num (balloon_branch (termInMonths_of f) (balloon_of f) n x) 0.
Proof.
  intro Hx. rewrite (accepted_term f P R T A), balloon_branch_spec.
  rewrite Nat.eqb_refl. unfold balloon_amount in Hx.
  destruct (balloon_of f) as [|b].
  - destruct x; exact Hx.
  - destruct (Qltb 0 b) eqn:E.
    + unfold num_gtb.
      rewrite (num_ltb_spec (Num b) x b b); [|reflexivity | exact Hx].
      replace (Qltb b b) with false by (symmetry; apply Qltb_ge; lra).
      cbn [num_ltb]. rewrite E.
      eapply is_num_eq; [apply is_num_sub; [exact Hx | reflexivity] | ring].
    + unfold num_gtb. cbn [num_ltb]. rewrite E.
      now destruct (match x with NaN => false | Num b0 => Qltb b b0 end).
Qed.

(** Every month of the term is run; before the last one the balance follows
    the closed form, after it the balance is zero. *)
Lemma closed_form_invariant (k : nat) :
  (k <= n)%nat ->
  rows_after f k = k
  /\ is_num (remainingBalance (state_after f k))
            (if (k =? n)%nat then 0 else balance_at k).
Proof.
  induction k as [|k IH]; intro L.
  - split; [reflexivity|]. pose proof (months_pos f P R T A).
    replace (0 =? n)%nat with false by (symmetry; apply Nat.eqb_neq; lia).
    rewrite state_after_0. cbn [initial_state remainingBalance].
    rewrite (accepted_principal f P R T A). unfold is_num, balance_at.
    pose proof (growth_gt_1 f P R T A). change (Z.of_nat 0) with 0%Z.
    cbn [Qpower]. field. lra.
  - destruct IH as [Rows Bal]; [lia|].
    replace (k =? n)%nat with false in Bal
      by (symmetry; apply Nat.eqb_neq; lia).
    pose proof (balance_at_pos k ltac:(lia)) as Pos.
    assert (loop_test (termInMonths_of f) (S k) (state_after f k) = true) as Tst.
    { unfold loop_test. rewrite (accepted_term f P R T A), num_of_nat_leb.
      replace (S k <=? n)%nat with true by (symmetry; apply Nat.leb_le; lia).
      unfold num_gtb.
      rewrite (num_ltb_spec _ _ 0 (balance_at k)); [|reflexivity | exact Bal].
      now apply Qltb_lt. }
    assert (state_after f (S k)
            = month_step (rate_of f) (termInMonths_of f) (balloon_of f)
                (finalMonthlyRepayment_of f) (S k) (state_after f k)) as Step.
    { rewrite state_after_S, Rows, Nat.eqb_refl, Tst. reflexivity. }
    split.
    + unfold rows_after. rewrite Step, month_step_rows.
      fold (rows_after f k). now rewrite Rows.
    + rewrite Step. cbn [month_step remainingBalance].
      pose proof (balance_after_principal_spec _ _ _ _ _ _
                    (accepted_rate f P R T A)
                    (eq_ind_r (fun x => is_num x _)
                       (pmt_closed_form f P R T A) payment_is_pmt)
                    Bal) as Step'.
      pose proof (balance_at_succ k) as Succ.
      pose proof (balance_at_nonneg (S k) L) as NN.
      replace (Qltb _ 0) with false in Step'
        by (symmetry; apply Qltb_ge; rewrite <- Succ; exact NN).
      rewrite <- Succ in Step'.
      destruct (S k =? n)%nat eqn:E.
      * apply Nat.eqb_eq in E. rewrite E in *.
        apply final_balloon_branch.
        eapply is_num_eq; [exact Step' | apply balance_at_end].
      * rewrite (accepted_term f P R T A), balloon_branch_spec, E.
        exact Step'.
Qed.

(** In the last month the balance left once the principal is paid is the
    balloon exactly. *)
Lemma balance_before_balloon_last : is_num (balance_before_balloon f n) B.
Proof.
  pose proof (months_pos f P R T A) as N.
  unfold balance_before_balloon.
  destruct (closed_form_invariant (n - 1) ltac:(lia)) as [_ Bal].
  replace (n - 1 =? n)%nat with false in Bal
    by (symmetry; apply Nat.eqb_neq; lia).
  pose proof (balance_after_principal_spec _ _ _ _ _ _
                (accepted_rate f P R T A)
                (eq_ind_r (fun x => is_num x _)
                   (pmt_closed_form f P R T A) payment_is_pmt)
                Bal) as Step.
  pose proof (balance_at_succ (n - 1)) as Succ.
  replace (S (n - 1)) with n in Succ by lia.
  pose proof balloon_amount_nonneg as NN.
  replace (Qltb _ 0) with false in Step
    by (symmetry; apply Qltb_ge; rewrite <- Succ, balance_at_end; exact NN).
  now rewrite <- Succ, balance_at_end in Step.
Qed.

Lemma final_balance_zero : is_num (remainingBalance (state_after f n)) 0.
Proof.
  destruct (closed_form_invariant n (le_n _)) as [_ Bal].
  now rewrite Nat.eqb_refl in Bal.
Qed.

End ClosedForm.

(** * Printing a balance *)

Lemma toFixed2_comp (a b : Q) : a == b -> toFixed2 (Num a) = toFixed2 (Num b).
Proof.
  intro E. unfold toFixed2.
  assert (Qfloor (Qabs a * inject_Z 100 + (1 # 2))
          = Qfloor (Qabs b * inject_Z 100 + (1 # 2))) as ->
    by (apply Qfloor_comp; now rewrite E).
  now rewrite E.
Qed.

Lemma toFixed2_zero (x : num) : is_num x 0 -> toFixed2 x = "0.00".
Proof.
  destruct x as [|a]; [intros []|]. intro E.
  now rewrite (toFixed2_comp a 0 E).
Qed.

(** * The full-term schedule of the computed payment *)

Section FullTerm.

Variables (f : Form) (P R : Q) (T : Z).
Hypothesis A : Accepted f P R T.
Hypothesis NoOverride : no_override f.

Local Abbreviation n := (months_of T).

Lemma full_term_rows : List.length (Result.schedule (amortization f)) = n.
Proof.
  rewrite (accepted_result f P R T A). cbn [Result.schedule].
  now apply (closed_form_invariant f P R T A NoOverride n).
Qed.

Lemma full_term_last_row :
  exists rows row,
    Result.schedule (amortization f) = (rows ++ [row])%list
    /\ Entry.month row = n
    /\ Entry.remainingBalance row = "0.00".
Proof.
  rewrite (accepted_result f P R T A). cbn [Result.schedule].
  pose proof (months_pos f P R T A) as N.
  destruct (closed_form_invariant f P R T A NoOverride n (le_n _))
    as [Rows Bal].
  rewrite Nat.eqb_refl in Bal.
  rewrite schedule_rows, Rows.
  destruct n as [|m] eqn:E; [lia|].
  rewrite seq_S, map_app. cbn [map Nat.add].
  eexists _, _. split; [reflexivity|]. split; [reflexivity|].
  apply active_step in Rows. destruct Rows as (_ & _ & Step).
  rewrite Step in Bal. cbn [month_step remainingBalance] in Bal.
  cbn [row_of Entry.remainingBalance]. now apply toFixed2_zero.
Qed.

End FullTerm.

(** * The first month and the totals *)

Section Totals.

Variable f : Form.

Lemma rows_after_mono (k : nat) : (rows_after f k <= rows_after f (S k))%nat.
Proof.
  unfold rows_after. rewrite state_after_S.
  destruct (_ && _); [rewrite month_step_rows|]; lia.
Qed.

Lemma rows_after_mono_le (j k : nat) :
  (j <= k)%nat -> (rows_after f j <= rows_after f k)%nat.
Proof.
  induction 1 as [|k L IH]; [lia|]. pose proof (rows_after_mono k). lia.
Qed.

(** An accepted input has at least one row. *)
Lemma first_month_runs (P R : Q) (T : Z) :
  Accepted f P R T -> rows_after f 1 = 1%nat.
Proof.
  intro A. unfold rows_after. rewrite state_after_S, rows_after_0.
  cbn [Nat.eqb andb]. unfold loop_test.
  rewrite (accepted_term f P R T A), num_of_nat_leb.
  pose proof (months_pos f P R T A).
  replace (1 <=? months_of T)%nat with true
    by (symmetry; apply Nat.leb_le; lia).
  rewrite state_after_0. cbn [initial_state remainingBalance andb].
  rewrite (accepted_principal f P R T A). unfold num_gtb. cbn [num_ltb].
  replace (Qltb 0 P) with true
    by (symmetry; apply Qltb_lt, (principal_pos f P R T A)).
  now rewrite month_step_rows.
Qed.

Lemma accepted_schedule_nonempty (P R : Q) (T : Z) :
  Accepted f P R T -> Result.schedule (amortization f) <> [].
Proof.
  intros A E. rewrite (accepted_result f P R T A) in E.
  cbn [Result.schedule] in E.
  pose proof (first_month_runs P R T A) as F.
  pose proof (months_pos f P R T A).
  pose proof (rows_after_mono_le 1 (months_of T) ltac:(lia)) as M.
  unfold rows_after in M at 2. rewrite E in M. simpl in M. lia.
Qed.

(** The interest accumulated after at most [k] iterations is the sum of the
    interest of the months run. *)
Lemma cumulative_interest_sum (k : nat) :
  cumulativeInterest (state_after f k) =
  fold_left num_add
    (map (fun j => interest_for_month (rate_of f)
                     (remainingBalance (state_after f j)))
         (seq 0 (rows_after f k)))
    (Num 0).
Proof.
  induction k as [|k IH]; [reflexivity|].
  unfold rows_after. rewrite state_after_S.
  destruct (_ && _) eqn:C; [|exact IH].
  apply andb_prop in C. destruct C as [C _]. apply Nat.eqb_eq in C.
  rewrite month_step_rows. cbn [month_step cumulativeInterest].
  fold (rows_after f k). rewrite IH, C, seq_S, map_app, fold_left_app.
  reflexivity.
Qed.

End Totals.

(** * Claims *)





(** C8 (as the code has it).  [totalInterest] is the sum of the interest of
    the months of the schedule (before rounding; the rows show it rounded),
    and [totalPayment] is the principal plus [totalInterest] when the input
    is accepted and 0 when it is rejected. *)
Theorem total_payment (f : Form) :
  Result.totalInterest (amortization f)
  = fold_left num_add (monthly_interest f) (Num 0)
  /\ map Entry.interest (Result.schedule (amortization f))
     = map toFixed2 (monthly_interest f)
  /\ Result.totalPayment (amortization f)
     = if accepts f
       then num_add (principal_of f) (Result.totalInterest (amortization f))
       else Num 0.
Proof.
  unfold monthly_interest, accepts, amortization.
  destruct (rejected _ _ _); cbn [negb]; [repeat split|].
  cbn [Result.schedule Result.totalInterest Result.totalPayment].
  split; [apply cumulative_interest_sum|]. split; [|reflexivity].
  rewrite schedule_rows, !map_map, length_map, length_seq. reflexivity.
Qed.

(** C8, the claim as stated fails: on a rejected input with a principal
    that parses to 250000 the total payment is 0, not the principal plus
    the total interest. *)
Lemma rejected_total_payment_is_zero :
  let f := {| loanAmount := "250000"; interestRate := "0"; loanTerm := "30";
              balloonPayment := "0"; monthlyRepayment := Num 0;
              overrideRepayment := false |} in
  Result.totalPayment (amortization f) = Num 0
  /\ num_add (principal_of f) (Result.totalInterest (amortization f))
     = Num (250000 # 1)
  /\ Result.totalPayment (amortization f)
     <> num_add (principal_of f) (Result.totalInterest (amortization f)).
Proof.
  cbv zeta. split; [reflexivity|]. split; [reflexivity|].
  vm_compute. discriminate.
Qed.

(** * The balloon when it is not positive *)





(** * Claims, continued *)




(** C5.  For an accepted input the schedule is the one the loop generates
    with the effective payment, which is the override when the flag is set
    and the override is a number above zero, and the computed payment
    otherwise; the payment returned is the computed one whatever the
    override. *)
Theorem override_payment (f : Form) :
  accepts f = true ->
  (forall m, overrideRepayment f = true -> monthlyRepayment f = Num m ->
             0 < m -> finalMonthlyRepayment_of f = Num m)
  /\ (no_override f -> finalMonthlyRepayment_of f = pmt_of f)
  /\ Result.schedule (amortization f)
     = newSchedule
         (schedule_loop (rate_of f) (termInMonths_of f) (balloon_of f)
            (finalMonthlyRepayment_of f)
            (months_bound (termInMonths_of f)) 1
            (initial_state (principal_of f)))
  /\ Result.calculatedMthRepayment (amortization f)
     = compute_pmt (principal_of f) (rate_of f) (termInMonths_of f)
         (balloon_of f)
  /\ forall o m,
       Result.calculatedMthRepayment (amortization (with_override f o m))
       = Result.calculatedMthRepayment (amortization f).
Proof.
  intro Acc. unfold accepts in Acc. apply negb_true_iff in Acc.
  split; [|split; [|split; [|split]]].
  - intros m Ho Hm Pos. unfold finalMonthlyRepayment_of, effective_payment.
    rewrite Ho, Hm. unfold num_gtb. cbn [num_ltb andb].
    now replace (Qltb 0 m) with true by (symmetry; now apply Qltb_lt).
  - intro N. unfold finalMonthlyRepayment_of, effective_payment.
    unfold no_override in N. now rewrite N.
  - unfold amortization. rewrite Acc. reflexivity.
  - unfold amortization. rewrite Acc. reflexivity.
  - intros o m. unfold amortization.
    change (principal_of (with_override f o m)) with (principal_of f).
    change (rate_of (with_override f o m)) with (rate_of f).
    change (termInMonths_of (with_override f o m)) with (termInMonths_of f).
    rewrite Acc. reflexivity.
Qed.

Lemma override_payment_witness :
  let f := {| loanAmount := "1000"; interestRate := "12"; loanTerm := "1";
              balloonPayment := "0"; monthlyRepayment := Num (200 # 1);
              overrideRepayment := true |} in
  finalMonthlyRepayment_of f = Num (200 # 1)
  /\ List.length (Result.schedule (amortization f)) = 6%nat.
Proof.
  cbv zeta. split.
  - refine (proj1 (override_payment _ _) (200 # 1) _ _ _); reflexivity.
  - vm_compute. reflexivity.
Defined.



(** * The two scenarios *)

Lemma scenario_A_accepted : Accepted scenario_A (250000 # 1) (7 # 2) 30.
Proof. split; reflexivity. Qed.

Lemma scenario_B_accepted : Accepted scenario_B (250000 # 1) (7 # 2) 30.
Proof. split; reflexivity. Qed.

(** The scenarios in exact arithmetic: the payment with the balloon is
    below the payment without, the schedule with the balloon has 360 rows,
    the balance of month 360 once the principal is paid is the balloon
    exactly, so the balloon is subtracted and the last row records 0.00.
    On binary64 numbers the balance misses the balloon by a rounding error;
    the last section evaluates the scenario there. *)
Lemma scenario_B_exact :
  (exists a b,
     Result.calculatedMthRepayment (amortization scenario_A) = Num a
     /\ Result.calculatedMthRepayment (amortization scenario_B) = Num b
     /\ b < a)
  /\ List.length (Result.schedule (amortization scenario_B)) = 360%nat
  /\ (exists rows row,
        Result.schedule (amortization scenario_B) = (rows ++ [row])%list
        /\ Entry.month row = 360%nat
        /\ Entry.remainingBalance row = "0.00")
  /\ is_num (balance_before_balloon scenario_B 360) (50000 # 1)
  /\ is_num (remainingBalance (state_after scenario_B 360)) 0.
Proof.
  pose proof scenario_A_accepted as HA. pose proof scenario_B_accepted as HB.
  assert (no_override scenario_A) as NA by reflexivity.
  assert (no_override scenario_B) as NB by reflexivity.
  split; [|split; [|split; [|split]]].
  - pose proof (pmt_closed_form _ _ _ _ HA) as CA.
    pose proof (pmt_closed_form _ _ _ _ HB) as CB.
    pose proof (pmt_divisors_positive _ _ _ _ HA) as [D _].
    pose proof (rate_pos _ _ _ _ HA) as Rp.
    rewrite (accepted_result _ _ _ _ HA), (accepted_result _ _ _ _ HB).
    cbn [Result.calculatedMthRepayment].
    change (balloon_amount (balloon_of scenario_A)) with 0 in CA.
    change (balloon_amount (balloon_of scenario_B)) with (50000 # 1) in CB.
    apply is_num_inv in CA. apply is_num_inv in CB.
    destruct CA as (a & -> & Ea). destruct CB as (b & -> & Eb).
    exists a, b. split; [reflexivity|]. split; [reflexivity|].
    rewrite Ea, Eb.
    set (r := (7 # 2) / inject_Z 100 / inject_Z 12) in *.
    set (G := (1 + r) ^ Z.of_nat (months_of 30)) in *.
    apply Qlt_shift_div_l; [exact D|].
    assert (r * ((250000 # 1) * G - (50000 # 1)) / (G - 1) * (G - 1)
            == r * ((250000 # 1) * G - (50000 # 1))) as -> by (field; lra).
    nra.
  - exact (full_term_rows _ _ _ _ HB NB).
  - exact (full_term_last_row _ _ _ _ HB NB).
  - exact (balance_before_balloon_last _ _ _ _ HB NB).
  - exact (final_balance_zero _ _ _ _ HB NB).
Qed.

(** C3 (as the code has it).  For an accepted input with a balloon [B > 0]
    whose schedule reaches the last month [n], the balance recorded in that
    month is the balance left once the principal is paid, less [B] when that
    balance does not exceed [B], and unchanged when it exceeds [B]. *)
Theorem final_period_balloon (f : Form) (P R : Q) (T : Z) (B : Q) :
  Accepted f P R T -> balloon_of f = Num B -> 0 < B ->
  rows_after f (months_of T) = months_of T ->
  let n := months_of T in
  let x := balance_before_balloon f n in
  let final := if num_gtb x (Num B) then x else num_sub x (Num B) in
  remainingBalance (state_after f n) = final
  /\ exists rows row,
       Result.schedule (amortization f) = (rows ++ [row])%list
       /\ Entry.month row = n
       /\ Entry.remainingBalance row = toFixed2 final.
Proof.
  intros A HB Bpos Rows n x final.
  pose proof (months_pos f P R T A) as N.
  assert (balloon_branch (termInMonths_of f) (balloon_of f) n x = final) as BB.
  { rewrite (accepted_term f P R T A), balloon_branch_spec, Nat.eqb_refl, HB.
    unfold final. destruct (num_gtb x (Num B)); [reflexivity|].
    unfold num_gtb. cbn [num_ltb].
    now replace (Qltb 0 B) with true by (symmetry; now apply Qltb_lt). }
  rewrite (accepted_result f P R T A). cbn [Result.schedule].
  fold n. rewrite schedule_rows. fold n in Rows. rewrite Rows.
  unfold x, balance_before_balloon in BB.
  destruct n as [|m] eqn:E; [lia|].
  replace (S m - 1)%nat with m in BB by lia.
  apply active_step in Rows. destruct Rows as (_ & _ & Step).
  split.
  - rewrite Step. cbn [month_step remainingBalance]. exact BB.
  - rewrite seq_S, map_app. cbn [map Nat.add].
    eexists _, _. split; [reflexivity|]. split; [reflexivity|].
    cbn [row_of Entry.remainingBalance]. now rewrite BB.
Qed.

Lemma final_period_balloon_witness :
  let f := {| loanAmount := "1000"; interestRate := "12"; loanTerm := "1";
              balloonPayment := "100"; monthlyRepayment := Num (85 # 1);
              overrideRepayment := true |} in
  remainingBalance (state_after f 12)
  = if num_gtb (balance_before_balloon f 12) (Num (100 # 1))
    then balance_before_balloon f 12
    else num_sub (balance_before_balloon f 12) (Num (100 # 1)).
Proof.
  cbv zeta.
  refine (proj1 (final_period_balloon _ (1000 # 1) (12 # 1) 1 (100 # 1)
                   _ _ _ _)).
  - split; reflexivity.
  - reflexivity.
  - reflexivity.
  - vm_compute. reflexivity.
Defined.

(** C3, the claim as stated fails: with a balloon of 100 and an override
    payment of 20 the schedule reaches month 12 with 873.17 left, which
    exceeds the balloon, and that is the balance recorded; the balloon is
    not subtracted. *)
Lemma low_override_keeps_balloon :
  let f := {| loanAmount := "1000"; interestRate := "12"; loanTerm := "1";
              balloonPayment := "100"; monthlyRepayment := Num (20 # 1);
              overrideRepayment := true |} in
  accepts f = true
  /\ balloon_of f = Num (100 # 1)
  /\ nth_error (Result.schedule (amortization f)) 11
     = Some {| Entry.month := 12; Entry.interest := "8.84";
               Entry.principal := "11.16"; Entry.payment := "20.00";
               Entry.remainingBalance := "873.17" |}
  /\ toFixed2 (balance_before_balloon f 12) = "873.17"
  /\ toFixed2 (num_sub (balance_before_balloon f 12) (balloon_of f))
     = "773.17".
Proof. vm_compute. repeat split. Qed.

(** * The yearly roll-up *)

Section Chart.

Variable s : list Entry.t.

(** On consecutive months a range of months is a range of positions. *)
Lemma filter_months_range (l : list Entry.t) (o lo hi : nat) :
  map Entry.month l = seq o (List.length l) ->
  filter (fun r => (lo <=? Entry.month r) && (Entry.month r <=? hi))%nat l
  = firstn (hi + 1 - Nat.max lo o) (skipn (lo - o) l).
Proof.
  revert o. induction l as [|r l IH]; intros o H.
  - now rewrite skipn_nil, firstn_nil.
  - cbn [map List.length seq] in H. injection H as Hr Hl.
    cbn [filter]. rewrite (IH (S o) Hl), Hr.
    destruct (lo <=? o)%nat eqn:E1; [apply Nat.leb_le in E1|apply Nat.leb_gt in E1].
    + replace (lo - S o)%nat with O by lia.
      replace (lo - o)%nat with O by lia.
      replace (Nat.max lo (S o)) with (S o) by lia.
      replace (Nat.max lo o) with o by lia. cbn [skipn andb].
      destruct (o <=? hi)%nat eqn:E2;
        [apply Nat.leb_le in E2|apply Nat.leb_gt in E2].
      * replace (hi + 1 - o)%nat with (S (hi + 1 - S o)) by lia.
        reflexivity.
      * replace (hi + 1 - S o)%nat with O by lia.
        replace (hi + 1 - o)%nat with O by lia. reflexivity.
    + cbn [andb]. replace (lo - o)%nat with (S (lo - S o)) by lia.
      replace (Nat.max lo (S o)) with lo by lia.
      replace (Nat.max lo o) with lo by lia. reflexivity.
Qed.

Hypothesis Months : consecutive_months s.

(** The twelve positions the chart takes for year [i+1] hold the rows whose
    month falls in that year. *)
Lemma slice_is_year (i : nat) :
  slice s (i * 12) (i * 12 + 12) = filter (in_year (S i)) s.
Proof.
  unfold in_year, slice.
  rewrite (filter_months_range s 1 _ _ Months).
  f_equal; [|f_equal]; lia.
Qed.

Lemma slice_empty_iff (i : nat) :
  slice s (i * 12) (i * 12 + 12) = [] <-> (List.length s <= i * 12)%nat.
Proof.
  unfold slice. replace (i * 12 + 12 - i * 12)%nat with 12%nat by lia.
  split; intro H.
  - apply (f_equal (@List.length _)) in H.
    rewrite length_firstn, length_skipn in H.
    cbn [List.length] in H. lia.
  - rewrite skipn_all2 by exact H. reflexivity.
Qed.

Lemma fold_sum (field : Entry.t -> string) (rows : list Entry.t) (acc : num) :
  fold_left (fun a curr => num_add a (parseFloat (field curr))) rows acc
  = fold_left num_add (map (fun r => parseFloat (field r)) rows) acc.
Proof.
  revert acc. induction rows as [|r rows IH]; intro acc; [reflexivity|].
  cbn [fold_left map]. apply IH.
Qed.

Lemma year_bar_summary (i : nat) :
  year_bar s i = yearly_summary (S i) (filter (in_year (S i)) s).
Proof.
  unfold year_bar, yearly_summary, sum_of. cbv zeta.
  rewrite slice_is_year, !fold_sum, Nat.add_1_r. reflexivity.
Qed.

Variables (loanTerm : string) (T : nat).
Hypothesis Term : is_num (toNumber loanTerm) (inject_Z (Z.of_nat T)).

Lemma chart_test (i : nat) :
  num_ltb (num_of_nat i) (toNumber loanTerm) = (i <? T)%nat.
Proof.
  rewrite (num_ltb_spec _ _ (inject_Z (Z.of_nat i)) (inject_Z (Z.of_nat T)));
    [|reflexivity|exact Term].
  destruct (i <? T)%nat eqn:E.
  - apply Qltb_lt. rewrite <- Zlt_Qlt. apply Nat.ltb_lt in E. lia.
  - apply Qltb_ge. rewrite <- Zle_Qle. apply Nat.ltb_ge in E. lia.
Qed.

(** With enough fuel the loop of the chart computes the aggregation of the
    specification for the years that remain. *)
Lemma chart_loop_spec (fuel i : nat) (acc : list Year.t) :
  (List.length s < (i + fuel) * 12)%nat ->
  chart_loop loanTerm s fuel i acc
  = (acc ++ yearly_spec_from s (T - i) (S i))%list.
Proof.
  revert i acc. induction fuel as [|fuel IH]; intros i acc Fuel.
  - cbn [chart_loop].
    assert (filter (in_year (S i)) s = []) as E
      by (rewrite <- slice_is_year; apply slice_empty_iff; lia).
    destruct (T - i)%nat; cbn [yearly_spec_from]; [|rewrite E];
      now rewrite app_nil_r.
  - cbn [chart_loop]. rewrite chart_test.
    destruct (i <? T)%nat eqn:L;
      [apply Nat.ltb_lt in L|apply Nat.ltb_ge in L].
    + replace (T - i)%nat with (S (T - S i)) by lia.
      cbn [yearly_spec_from]. rewrite <- slice_is_year.
      destruct (slice s (i * 12) (i * 12 + 12)) as [|r rows] eqn:E.
      * cbn [List.length Nat.eqb]. now rewrite app_nil_r.
      * cbn [List.length Nat.eqb]. rewrite IH by lia.
        rewrite <- app_assoc. cbn [app]. rewrite year_bar_summary.
        rewrite <- slice_is_year, E. reflexivity.
    + replace (T - i)%nat with O by lia. cbn [yearly_spec_from].
      now rewrite app_nil_r.
Qed.

(** One summary per elapsed year. *)
Lemma yearly_spec_length (c i : nat) :
  List.length (yearly_spec_from s c (S i))
  = Nat.min c ((List.length s + 11) / 12 - i).
Proof.
  revert i. induction c as [|c IH]; intro i; [reflexivity|].
  cbn [yearly_spec_from].
  pose proof (slice_empty_iff i) as E. rewrite slice_is_year in E.
  pose proof (Nat.div_mod_eq (List.length s + 11) 12) as D.
  pose proof (Nat.mod_upper_bound (List.length s + 11) 12 ltac:(lia)) as M.
  destruct (filter (in_year (S i)) s) as [|r rows].
  - assert (List.length s <= i * 12)%nat by now apply E.
    cbn [List.length]. lia.
  - assert (~ (List.length s <= i * 12)%nat) by (intro H; now apply E in H).
    cbn [List.length]. rewrite IH. lia.
Qed.

End Chart.

(** C9.  On a schedule whose months are 1, 2, ... in order (every schedule
    of the engine is one) and a term of [T] years, the chart data are the
    summaries of the years 1, 2, ... in order, year [y] summing the
    principal and the interest of the rows with month in
    [(y-1)*12+1, y*12]; the aggregation stops at the first year without rows
    or after [T] years, so there is one summary per elapsed year. *)
Theorem yearly_aggregation (s : list Entry.t) (loanTerm : string) (T : nat) :
  consecutive_months s ->
  is_num (toNumber loanTerm) (inject_Z (Z.of_nat T)) ->
  chartData s loanTerm = yearly_spec s T
  /\ List.length (chartData s loanTerm)
     = Nat.min T ((List.length s + 11) / 12).
Proof.
  intros Months Term.
  assert (chartData s loanTerm = yearly_spec s T) as E.
  { unfold chartData, yearly_spec.
    destruct s as [|r rows] eqn:Es.
    - cbn [List.length Nat.eqb]. now destruct T.
    - rewrite <- Es in *. replace (List.length s =? 0)%nat with false
        by (symmetry; apply Nat.eqb_neq; rewrite Es; discriminate).
      rewrite (chart_loop_spec s Months loanTerm T Term) by lia.
      now rewrite Nat.sub_0_r. }
  split; [exact E|]. rewrite E. unfold yearly_spec.
  rewrite (yearly_spec_length s Months). now rewrite Nat.sub_0_r.
Qed.

(** The schedule of the engine has consecutive months. *)
Lemma amortization_consecutive (f : Form) :
  consecutive_months (Result.schedule (amortization f)).
Proof.
  unfold amortization. destruct (rejected _ _ _); [reflexivity|].
  apply schedule_consecutive.
Qed.

Lemma yearly_aggregation_witness :
  let f := {| loanAmount := "1000"; interestRate := "12"; loanTerm := "2";
              balloonPayment := "0"; monthlyRepayment := Num (70 # 1);
              overrideRepayment := true |} in
  chartData (Result.schedule (amortization f)) (loanTerm f)
  = yearly_spec (Result.schedule (amortization f)) 2
  /\ List.length (chartData (Result.schedule (amortization f)) (loanTerm f))
     = 2%nat.
Proof.
  cbv zeta.
  assert (is_num (toNumber "2") (inject_Z (Z.of_nat 2))) as Term
    by reflexivity.
  destruct (yearly_aggregation _ "2" 2
              (amortization_consecutive
                 {| loanAmount := "1000"; interestRate := "12";
                    loanTerm := "2"; balloonPayment := "0";
                    monthlyRepayment := Num (70 # 1);
                    overrideRepayment := true |}) Term)
    as [Same Count].
  split; [exact Same|].
  transitivity (Nat.min 2 ((18 + 11) / 12)); [exact Count | reflexivity].
Defined.

(** * Reading back what [toFixed(2)] prints *)

Lemma digit_cases (d : N) :
  (d < 10)%N ->
  d = 0%N \/ d = 1%N \/ d = 2%N \/ d = 3%N \/ d = 4%N \/ d = 5%N
  \/ d = 6%N \/ d = 7%N \/ d = 8%N \/ d = 9%N.
Proof. lia. Qed.

Ltac each_digit d H :=
  destruct (digit_cases d H)
    as [->|[->|[->|[->|[->|[->|[->|[->|[->| ->]]]]]]]]].

Lemma digit_val_char (d : N) :
  (d < 10)%N -> digit_val 10 (digit_char d) = Some d.
Proof. intro H. each_digit d H; reflexivity. Qed.

Lemma read_digit_char (d : N) (rest : string) (a : N) (c : nat) :
  (d < 10)%N ->
  read_digits 10 (String (digit_char d) rest) a c
  = read_digits 10 rest (a * 10 + d) (S c).
Proof. intro H. cbn [read_digits]. now rewrite digit_val_char. Qed.

Lemma digits_fuel_app (fuel : nat) (n : N) (acc rest : string) :
  digits_fuel fuel n (acc ++ rest) = digits_fuel fuel n acc ++ rest.
Proof.
  revert n acc. induction fuel as [|fuel IH]; intros n acc; [reflexivity|].
  cbn [digits_fuel]. destruct (n / 10 =? 0)%N; [reflexivity|].
  apply (IH (n / 10)%N (String _ acc)).
Qed.

(** The digits printed start with a digit. *)
Lemma digits_fuel_head (fuel : nat) (n : N) (rest : string) :
  exists d r,
    (d < 10)%N /\ digits_fuel (S fuel) n rest = String (digit_char d) r.
Proof.
  revert n rest. induction fuel as [|fuel IH]; intros n rest.
  - exists (n mod 10)%N, rest. split; [apply N.mod_lt; discriminate|].
    cbn [digits_fuel]. now destruct (n / 10 =? 0)%N.
  - cbn [digits_fuel]. destruct (n / 10 =? 0)%N.
    + exists (n mod 10)%N, rest. split; [apply N.mod_lt; discriminate|].
      reflexivity.
    + apply (IH (n / 10)%N).
Qed.

(** Reading the digits printed gives the number back. *)
Lemma read_digits_fuel (fuel : nat) (n : N) (rest : string) :
  (n < 10 ^ N.of_nat (S fuel))%N ->
  exists k,
    forall a c,
      read_digits 10 (digits_fuel (S fuel) n rest) a c
      = read_digits 10 rest (a * 10 ^ N.of_nat (S k) + n) (c + S k).
Proof.
  revert n rest. induction fuel as [|fuel IH]; intros n rest Hn.
  - exists O. intros a c. change (10 ^ N.of_nat 1)%N with 10%N in *.
    cbn [digits_fuel]. rewrite N.mod_small by exact Hn.
    replace (if (n / 10 =? 0)%N then String (digit_char n) rest
             else String (digit_char n) rest)
      with (String (digit_char n) rest) by now destruct (n / 10 =? 0)%N.
    rewrite read_digit_char by exact Hn. f_equal. lia.
  - change (digits_fuel (S (S fuel)) n rest)
      with (if (n / 10 =? 0)%N then String (digit_char (n mod 10)) rest
            else digits_fuel (S fuel) (n / 10)
                   (String (digit_char (n mod 10)) rest)).
    pose proof (N.mod_lt n 10 ltac:(discriminate)) as Hd.
    pose proof (N.div_mod n 10 ltac:(discriminate)) as Hdm.
    destruct (n / 10 =? 0)%N eqn:E.
    + apply N.eqb_eq in E. exists O. intros a c.
      rewrite read_digit_char by exact Hd. f_equal; [|lia].
      change (10 ^ N.of_nat 1)%N with 10%N. f_equal. lia.
    + assert (n / 10 < 10 ^ N.of_nat (S fuel))%N as Hq.
      { apply N.Div0.div_lt_upper_bound.
        rewrite <- N.pow_succ_r', <- Nat2N.inj_succ. exact Hn. }
      destruct (IH (n / 10)%N (String (digit_char (n mod 10)) rest) Hq)
        as [k Hk].
      exists (S k). intros a c. rewrite Hk.
      rewrite read_digit_char by exact Hd. f_equal; [|lia].
      rewrite (Nat2N.inj_succ (S k)), N.pow_succ_r'. lia.
Qed.

Lemma digits_of_N_read (n : N) (rest : string) :
  exists k,
    forall a c,
      read_digits 10 (digits_of_N n ++ rest) a c
      = read_digits 10 rest (a * 10 ^ N.of_nat (S k) + n) (c + S k).
Proof.
  unfold digits_of_N.
  rewrite <- digits_fuel_app. cbn [append].
  apply read_digits_fuel.
  destruct n as [|p]; [reflexivity|].
  apply N.lt_le_trans with (2 ^ N.succ (N.log2 (N.pos p)))%N.
  - apply N.log2_spec. reflexivity.
  - rewrite Nat2N.inj_succ, N2Nat.id.
    apply N.pow_le_mono_l. lia.
Qed.

Lemma digits_of_N_head (n : N) :
  exists d r, (d < 10)%N /\ digits_of_N n = String (digit_char d) r.
Proof. apply digits_fuel_head. Qed.

(** An unsigned amount with two decimals reads back as the number of
    hundredths it prints. *)
Lemma read_two_decimals (m d1 d2 : N) :
  (d1 < 10)%N -> (d2 < 10)%N ->
  exists q,
    str_unsigned_decimal
      (digits_of_N m
       ++ String "." (String (digit_char d1) (String (digit_char d2) "")))
    = Some (q, "")
    /\ q == inject_Z (Z.of_N (m * 100 + d1 * 10 + d2)) / inject_Z 100.
Proof.
  intros H1 H2. unfold str_unsigned_decimal.
  destruct (digits_of_N_read m
              (String "." (String (digit_char d1)
                             (String (digit_char d2) "")))) as [k Hk].
  rewrite Hk. cbn [read_digits digit_val].
  change (digit_val 10 ".") with (@None N). cbv iota.
  rewrite !read_digit_char by assumption. cbn [read_digits].
  cbn [Nat.add]. cbv iota beta.
  change (read_exponent "") with (0%Z, "").
  cbv iota beta. eexists. split; [reflexivity|].
  change (10 ^ N.of_nat 2)%N with 100%N.
  change (inject_Z 10 ^ 0) with 1. rewrite Qmult_1_r.
  replace (m * 100 + d1 * 10 + d2)%N
    with ((0 * 10 ^ N.of_nat (S k) + m) * 100 + ((0 * 10 + d1) * 10 + d2))%N
    by lia.
  reflexivity.
Qed.

Lemma skip_ws_digit (d : N) (r : string) :
  (d < 10)%N -> skip_ws (String (digit_char d) r) = String (digit_char d) r.
Proof. intro H. each_digit d H; reflexivity. Qed.

Lemma str_decimal_digit (d : N) (r : string) :
  (d < 10)%N ->
  str_decimal (String (digit_char d) r)
  = str_unsigned_decimal (String (digit_char d) r).
Proof. intro H. each_digit d H; reflexivity. Qed.

Lemma hundredths_split (n : N) :
  (n / 100 * 100 + n / 10 mod 10 * 10 + n mod 10 = n)%N.
Proof.
  pose proof (N.div_mod n 10 ltac:(discriminate)).
  pose proof (N.div_mod (n / 10) 10 ltac:(discriminate)).
  assert (n / 10 / 10 = n / 100)%N by now rewrite N.Div0.div_div.
  lia.
Qed.

Lemma floor_half_nonneg (q : Q) :
  (0 <= Qfloor (Qabs q * inject_Z 100 + (1 # 2)))%Z.
Proof.
  change 0%Z with (Qfloor 0). apply Qfloor_resp_le.
  pose proof (Qabs_nonneg q). change (inject_Z 100) with 100. lra.
Qed.

(** What [toFixed(2)] prints reads back as the rounded amount. *)
Lemma parseFloat_toFixed2 (q : Q) :
  is_num (parseFloat (toFixed2 (Num q))) (inject_Z (cents q) / inject_Z 100).
Proof.
  unfold toFixed2, cents.
  pose proof (floor_half_nonneg q) as NN.
  set (z := Qfloor (Qabs q * inject_Z 100 + (1 # 2))) in *.
  set (n := Z.to_N z).
  assert (Z.of_N n = z) as Zn by (unfold n; lia).
  destruct (read_two_decimals (n / 100) (n / 10 mod 10) (n mod 10))
    as (v & Hv & Ev); try (apply N.mod_lt; discriminate).
  rewrite hundredths_split, Zn in Ev.
  destruct (digits_of_N_head (n / 100)) as (d & r & Hd & E).
  rewrite E in *. cbn [append] in *.
  unfold parseFloat. destruct (Qltb q 0).
  - change (skip_ws (String "-" ?s)) with (String "-" s).
    cbn [skip_ws is_ws]. change (is_ws "-") with false. cbv iota.
    change (str_decimal (String "-" ?s))
      with (match str_unsigned_decimal s with
            | Some (q, r') => Some (- q, r')
            | None => None
            end).
    rewrite Hv. cbn [is_num]. rewrite Qred_correct, Ev, inject_Z_opp.
    field.
  - rewrite skip_ws_digit, str_decimal_digit, Hv by exact Hd.
    cbn [is_num]. now rewrite Qred_correct.
Qed.







(** * The recorded balances *)


Section Balances.

Variables (f : Form) (P R : Q) (T : Z).
Hypothesis A : Accepted f P R T.

Local Abbreviation r := (R / inject_Z 100 / inject_Z 12).
Local Abbreviation n := (months_of T).
Local Abbreviation balance := (balance_after f).

Lemma payment_is_num : exists e, is_num (finalMonthlyRepayment_of f) e.
Proof.
  unfold finalMonthlyRepayment_of, effective_payment.
  destruct (_ && _) eqn:E.
  - apply andb_prop in E. destruct E as [_ E]. apply num_gtb_true in E.
    destruct E as (a & _ & -> & _ & _). now exists a.
  - eexists. apply (pmt_closed_form f P R T A).
Qed.

(** A month is run only on a positive balance. *)
Lemma active_balance_pos (j : nat) :
  rows_after f (S j) = S j -> exists b, balance j = Num b /\ 0 < b.
Proof.
  intro H. apply active_step in H. destruct H as (_ & Tst & _).
  unfold loop_test in Tst. apply andb_prop in Tst. destruct Tst as [_ G].
  apply num_gtb_true in G. destruct G as (b & z & Hb & Hz & L).
  injection Hz as <-. eauto.
Qed.

Lemma active_balance_step (j : nat) :
  rows_after f (S j) = S j ->
  balance (S j)
  = balloon_branch (num_of_nat n) (balloon_of f) (S j)
      (balance_after_principal (rate_of f) (finalMonthlyRepayment_of f)
         (balance j)).
Proof.
  intro H. apply active_step in H. destruct H as (_ & _ & Step).
  unfold balance_after. rewrite Step, <- (accepted_term f P R T A).
  reflexivity.
Qed.








End Balances.

(** * Claim C1 *)




(** * Shape of the schedule *)

(** The schedule is an ordered sequence of months 1, 2, ... with at most
    one row per month of the term. *)
Theorem schedule_shape (f : Form) :
  consecutive_months (Result.schedule (amortization f))
  /\ (List.length (Result.schedule (amortization f))
      <= months_bound (termInMonths_of f))%nat.
Proof.
  split; [apply amortization_consecutive|].
  unfold amortization. destruct (rejected _ _ _); [cbn; lia|].
  apply rows_after_le.
Qed.



(** * More on the schedule of an accepted input *)


(** The balloon branch never raises the balance, and keeps a number a
    number. *)
Lemma balloon_branch_le (termInMonths balloon : num) (i : nat) (x : num)
    (c : Q) :
  is_num x c ->
  exists c', is_num (balloon_branch termInMonths balloon i x) c' /\ c' <= c.
Proof.
  intro Hx. unfold balloon_branch.
  destruct (_ && num_gtb x balloon); [exists c; split; [exact Hx|lra]|].
  destruct (num_eqb _ _); cbn [andb]; [|exists c; split; [exact Hx|lra]].
  destruct (num_gtb balloon (Num 0)) eqn:G; [|exists c; split; [exact Hx|lra]].
  apply num_gtb_true in G. destruct G as (B & z & -> & Hz & Bpos).
  injection Hz as <-. exists (c - B). split; [|lra].
  apply is_num_sub; [exact Hx | reflexivity].
Qed.

Section MoreSchedule.

Variables (f : Form) (P R : Q) (T : Z).
Hypothesis A : Accepted f P R T.

Local Abbreviation r := (R / inject_Z 100 / inject_Z 12).
Local Abbreviation n := (months_of T).
Local Abbreviation rows := (rows_after f (months_of T)).

Lemma schedule_length : List.length (Result.schedule (amortization f)) = rows.
Proof. now rewrite (accepted_result f P R T A). Qed.


Lemma rows_le_months : (rows <= n)%nat.
Proof. apply rows_after_le. Qed.


(** Every balance the loop reaches is a number. *)
Lemma balance_is_num (j : nat) :
  rows_after f j = j -> exists b, is_num (balance_after f j) b.
Proof.
  destruct j as [|j]; intro H.
  - exists P. unfold balance_after. rewrite state_after_0.
    cbn [initial_state remainingBalance].
    now rewrite (accepted_principal f P R T A).
  - rewrite (active_balance_step f P R T A j H).
    destruct (active_balance_pos f j H) as (b & Hb & _).
    destruct (payment_is_num f P R T A) as [e He].
    pose proof (balance_after_principal_spec _ _ _ _ _ _
                  (accepted_rate f P R T A) He
                  (eq_ind_r (fun x => is_num x b) (Qeq_refl b : is_num (Num b) b)
                     Hb)) as Hc.
    destruct (balloon_branch_le (num_of_nat n) (balloon_of f) (S j) _ _ Hc)
      as (c' & Hc' & _).
    now exists c'.
Qed.



End MoreSchedule.



(** * Paying off early, and where the principal goes *)

Section Payoff.

Variables (f : Form) (P R : Q) (T : Z).
Hypothesis A : Accepted f P R T.

Local Abbreviation r := (R / inject_Z 100 / inject_Z 12).
Local Abbreviation n := (months_of T).
Local Abbreviation rows := (rows_after f (months_of T)).







End Payoff.

(** * The shape of the schedule on binary64 numbers *)

(** The months the loop pushes from month [i] on are [i], [i+1], ...,
    whatever the arithmetic does. *)
Lemma binary64_loop_months (rate termInMonths balloon pay : float)
    (fuel i : nat) (st : Binary64.LoopState) :
  exists k,
    (k <= fuel)%nat
    /\ map Entry.month
         (Binary64.newSchedule
            (Binary64.schedule_loop rate termInMonths balloon pay fuel i st))
       = (map Entry.month (Binary64.newSchedule st) ++ seq i k)%list.
Proof.
  revert i st. induction fuel as [|fuel IH]; intros i st.
  - exists O. cbn [Binary64.schedule_loop seq]. now rewrite app_nil_r.
  - cbn [Binary64.schedule_loop].
    destruct (_ && _).
    + destruct (PrimFloat.leb _ 0).
      * exists 1%nat. split; [lia|].
        cbn [Binary64.month_step Binary64.newSchedule].
        rewrite map_app. reflexivity.
      * destruct (IH (S i)
                    (Binary64.month_step rate termInMonths balloon pay i st))
          as (k & L & E).
        exists (S k). split; [lia|]. rewrite E.
        cbn [Binary64.month_step Binary64.newSchedule].
        rewrite map_app, <- app_assoc. reflexivity.
    + exists O. split; [lia|]. cbn [seq]. now rewrite app_nil_r.
Qed.

(** On binary64 numbers, for every [Math.pow] and every input: the months
    of the schedule are 1, 2, ... in order and there are at most
    floor(termInMonths) rows, so rounding never disturbs the shape of the
    table. *)
Theorem binary64_schedule_shape (pow : float -> float -> float) (f : Form) :
  consecutive_months (Binary64.schedule (Binary64.amortization pow f))
  /\ (List.length (Binary64.schedule (Binary64.amortization pow f))
      <= Binary64.months_bound (Binary64.termInMonths_of f))%nat.
Proof.
  unfold consecutive_months, Binary64.amortization.
  destruct (Binary64.rejected _ _ _).
  - cbn [Binary64.schedule List.length map seq]. split; [reflexivity | lia].
  - cbn [Binary64.schedule]. unfold Binary64.final_state.
    match goal with
    | |- context [Binary64.schedule_loop ?r ?t ?b ?p ?fuel ?i ?st] =>
        destruct (binary64_loop_months r t b p fuel i st) as (k & L & E)
    end.
    cbn [Binary64.newSchedule map app] in E.
    assert (List.length
              (Binary64.newSchedule
                 (Binary64.schedule_loop (Binary64.rate_of f)
                    (Binary64.termInMonths_of f) (Binary64.balloon_of f)
                    (Binary64.effective_payment (overrideRepayment f)
                       (Binary64.of_num (monthlyRepayment f))
                       (Binary64.compute_pmt pow (Binary64.principal_of f)
                          (Binary64.rate_of f) (Binary64.termInMonths_of f)
                          (Binary64.balloon_of f)))
                    (Binary64.months_bound (Binary64.termInMonths_of f)) 1
                    {| Binary64.remainingBalance := Binary64.principal_of f;
                       Binary64.newSchedule := [];
                       Binary64.cumulativeInterest := 0 |})) = k) as Len.
    { rewrite <- (length_map Entry.month), E. apply length_seq. }
    rewrite Len. split; [exact E | exact L].
Qed.

(** * The scenarios on binary64 numbers *)

Module Binary64Facts.

Import Binary64.

(** The engine uses [pow] at two points only: the growth factor and its
    inverse. *)
Lemma amortization_pow_ext (pow pow' : float -> float -> float) (f : Form) :
  pow (1 + rate_of f)%float (termInMonths_of f)
  = pow' (1 + rate_of f)%float (termInMonths_of f) ->
  pow (1 + rate_of f)%float (- termInMonths_of f)%float
  = pow' (1 + rate_of f)%float (- termInMonths_of f)%float ->
  amortization pow f = amortization pow' f
  /\ final_state pow f = final_state pow' f.
Proof.
  intros H1 H2. unfold amortization, final_state, compute_pmt.
  rewrite H1, H2. split; reflexivity.
Qed.

(** The two constants are the correctly rounded growth factor of the
    scenarios and its inverse. *)
Lemma scenario_powers_nearest :
  nearest_powers (1 + rate_of scenario_B)%float (termInMonths_of scenario_B)
    scenario_growth scenario_discount = true.
Proof. vm_compute. reflexivity. Qed.

Lemma scenario_outcome_sound (pow : float -> float -> float) :
  scenario_outcome pow = true ->
  PrimFloat.ltb (calculatedMthRepayment (amortization pow scenario_B))
    (calculatedMthRepayment (amortization pow scenario_A)) = true
  /\ List.length (schedule (amortization pow scenario_B)) = 360%nat
  /\ option_map Entry.month
       (nth_error (schedule (amortization pow scenario_B)) 359)
     = Some 360%nat
  /\ option_map Entry.remainingBalance
       (nth_error (schedule (amortization pow scenario_B)) 359)
     = Some "50000.00"
  /\ PrimFloat.ltb (balloon_of scenario_B)
       (remainingBalance (final_state pow scenario_B)) = true.
Proof.
  unfold scenario_outcome. cbv zeta. intro H.
  apply andb_prop in H. destruct H as [H H5].
  apply andb_prop in H. destruct H as [H H34].
  apply andb_prop in H. destruct H as [H1 H2].
  apply Nat.eqb_eq in H2.
  destruct (nth_error (schedule (amortization pow scenario_B)) 359)
    as [row|]; [|discriminate H34].
  apply andb_prop in H34. destruct H34 as [H3 H4].
  apply Nat.eqb_eq in H3. apply String.eqb_eq in H4.
  cbn [option_map]. rewrite H3, H4. repeat split; assumption.
Qed.

Lemma scenario_outcome_ext (pow pow' : float -> float -> float) :
  pow (1 + rate_of scenario_B)%float (termInMonths_of scenario_B)
  = pow' (1 + rate_of scenario_B)%float (termInMonths_of scenario_B) ->
  pow (1 + rate_of scenario_B)%float (- termInMonths_of scenario_B)%float
  = pow' (1 + rate_of scenario_B)%float (- termInMonths_of scenario_B)%float ->
  scenario_outcome pow = scenario_outcome pow'.
Proof.
  intros Hg Hd. unfold scenario_outcome.
  destruct (amortization_pow_ext pow pow' scenario_B Hg Hd) as [-> ->].
  destruct (amortization_pow_ext pow pow' scenario_A Hg Hd) as [-> _].
  reflexivity.
Qed.

(** C7 on binary64 numbers.  Whatever [Math.pow] returns within one unit in
    the last place of the correctly rounded powers, for a principal of 250000 at 3.5 percent over 30 years
    the payment computed with a balloon of 50000 is below the one computed
    without, but in month 360 the balance left once the principal is paid
    is above 50000 by a rounding error, so the test of line 62 holds, the
    balloon is not subtracted, and the last row records 50000.00 instead
    of 0. *)
Theorem scenario_B_balloon_not_subtracted (pow : float -> float -> float) :
  faithful_at pow (1 + rate_of scenario_B)%float (termInMonths_of scenario_B)
    scenario_growth ->
  faithful_at pow (1 + rate_of scenario_B)%float
    (- termInMonths_of scenario_B)%float scenario_discount ->
  PrimFloat.ltb (calculatedMthRepayment (amortization pow scenario_B))
    (calculatedMthRepayment (amortization pow scenario_A)) = true
  /\ List.length (schedule (amortization pow scenario_B)) = 360%nat
  /\ option_map Entry.month
       (nth_error (schedule (amortization pow scenario_B)) 359)
     = Some 360%nat
  /\ option_map Entry.remainingBalance
       (nth_error (schedule (amortization pow scenario_B)) 359)
     = Some "50000.00"
  /\ PrimFloat.ltb (balloon_of scenario_B)
       (remainingBalance (final_state pow scenario_B)) = true.
Proof.
  unfold faithful_at. intros Hg Hd. apply scenario_outcome_sound.
  destruct Hg as [Hg|[Hg|Hg]]; destruct Hd as [Hd|[Hd|Hd]];
    match type of Hg with
    | _ = ?g =>
        match type of Hd with
        | _ = ?d =>
            rewrite (scenario_outcome_ext pow (pow_table g d) Hg Hd)
        end
    end;
    vm_compute; reflexivity.
Qed.

Lemma scenario_B_balloon_not_subtracted_witness :
  option_map Entry.remainingBalance
    (nth_error
       (schedule
          (amortization (pow_table scenario_growth scenario_discount)
             scenario_B)) 359)
  = Some "50000.00".
Proof.
  refine (proj1 (proj2 (proj2 (proj2
            (scenario_B_balloon_not_subtracted
               (pow_table scenario_growth scenario_discount) _ _))))).
  - left. reflexivity.
  - left. reflexivity.
Defined.

End Binary64Facts.

(** * Properties of the schedule of an accepted input *)








(** ** What is paid *)








(** * The repayment state: effect, checkbox and input *)

(** While the override is off, the stored repayment plays no part. *)
Lemma override_off_ignores_repayment (f : Form) (m : num) :
  overrideRepayment f = false ->
  amortization (with_override f false m) = amortization f.
Proof.
  intro Off. unfold amortization, state_after, finalMonthlyRepayment_of,
    pmt_of, principal_of, rate_of, termInMonths_of, balloon_of,
    effective_payment.
  rewrite Off. reflexivity.
Qed.

(** The computed payment as an override is the computed payment. *)
Lemma override_with_computed (f : Form) :
  amortization
    (with_override f true (Result.calculatedMthRepayment (amortization f)))
  = amortization (with_override f false (monthlyRepayment f)).
Proof.
  unfold amortization, state_after, finalMonthlyRepayment_of,
    pmt_of, principal_of, rate_of, termInMonths_of, balloon_of,
    effective_payment.
  cbn [with_override loanAmount interestRate loanTerm balloonPayment
       monthlyRepayment overrideRepayment andb].
  destruct (rejected _ _ _); [reflexivity|].
  cbn [Result.calculatedMthRepayment].
  now destruct (num_gtb _ (Num 0)).
Qed.

(** The effect of lines 94-98 settles: it does not change the result the
    component shows, running it again changes nothing, and with the
    override off the stored repayment is the computed payment. *)
Theorem effect_settles (f : Form) :
  amortization (sync_repayment f) = amortization f
  /\ sync_repayment (sync_repayment f) = sync_repayment f
  /\ (overrideRepayment f = false ->
      monthlyRepayment (sync_repayment f)
      = Result.calculatedMthRepayment (amortization f)).
Proof.
  assert (amortization (sync_repayment f) = amortization f) as Same.
  { unfold sync_repayment. destruct (overrideRepayment f) eqn:O;
      [reflexivity|].
    now apply override_off_ignores_repayment. }
  split; [exact Same|]. split.
  - unfold sync_repayment at 1. rewrite Same.
    unfold sync_repayment. destruct (overrideRepayment f) eqn:O.
    + now rewrite O.
    + reflexivity.
  - intro Off. unfold sync_repayment. now rewrite Off.
Qed.

Lemma effect_settles_witness :
  monthlyRepayment
    (sync_repayment
       {| loanAmount := "1200"; interestRate := "12"; loanTerm := "1";
          balloonPayment := ""; monthlyRepayment := Num 0;
          overrideRepayment := false |})
  = Result.calculatedMthRepayment
      (amortization
         {| loanAmount := "1200"; interestRate := "12"; loanTerm := "1";
            balloonPayment := ""; monthlyRepayment := Num 0;
            overrideRepayment := false |}).
Proof.
  refine (proj2 (proj2 (effect_settles _)) _). reflexivity.
Defined.

(** Ticking the override checkbox once the effect has run changes nothing
    in the result: the schedule stays the computed one until the amount is
    edited. *)
Theorem ticking_override_keeps_result (f : Form) :
  overrideRepayment f = false ->
  overrideRepayment (toggle_override (sync_repayment f)) = true
  /\ amortization (toggle_override (sync_repayment f)) = amortization f.
Proof.
  intro Off. unfold sync_repayment, toggle_override. rewrite Off.
  cbn [with_override overrideRepayment monthlyRepayment negb].
  split; [reflexivity|].
  change (with_override (with_override f false ?m) true ?m')
    with (with_override f true m').
  rewrite override_with_computed.
  now apply override_off_ignores_repayment.
Qed.

Lemma ticking_override_keeps_result_witness :
  amortization
    (toggle_override
       (sync_repayment
          {| loanAmount := "1200"; interestRate := "12"; loanTerm := "1";
             balloonPayment := ""; monthlyRepayment := Num 0;
             overrideRepayment := false |}))
  = amortization
      {| loanAmount := "1200"; interestRate := "12"; loanTerm := "1";
         balloonPayment := ""; monthlyRepayment := Num 0;
         overrideRepayment := false |}.
Proof.
  refine (proj2 (ticking_override_keeps_result _ _)). reflexivity.
Defined.

(** Rounding to hundredths moves an amount by half a cent at most. *)
Lemma cents_close (a : Q) :
  Qabs (inject_Z (cents a) / inject_Z 100 - a) <= 1 # 200.
Proof.
  unfold cents.
  pose proof (Qfloor_le (Qabs a * inject_Z 100 + (1 # 2))) as Lo.
  pose proof (Qlt_floor (Qabs a * inject_Z 100 + (1 # 2))) as Hi.
  set (z := Qfloor (Qabs a * inject_Z 100 + (1 # 2))) in *.
  rewrite inject_Z_plus in Hi.
  change (inject_Z 100) with 100 in *. change (inject_Z 1) with 1 in *.
  apply Qabs_Qle_condition.
  destruct (Qltb a 0) eqn:S.
  - apply Qltb_lt in S. rewrite (Qabs_neg a) in Lo, Hi by lra.
    rewrite inject_Z_opp.
    assert (- inject_Z z / 100 - a == (- inject_Z z - 100 * a) * (1 # 100))
      as -> by field.
    split; lra.
  - apply Qltb_ge in S. rewrite (Qabs_pos a) in Lo, Hi by lra.
    assert (inject_Z z / 100 - a == (inject_Z z - 100 * a) * (1 # 100))
      as -> by field.
    split; lra.
Qed.

(** The repayment input (lines 227-228): typing back what the field shows
    stores the amount rounded to the cent, half a cent away at most; an
    amount that is not a number above zero shows as 0.00 and reads back as
    0. *)
Theorem repayment_field_read_back (f : Form) :
  (forall m,
      monthlyRepayment f = Num m -> 0 < m ->
      exists v,
        monthlyRepayment (edit_repayment f (repayment_field f)) = Num v
        /\ v == inject_Z (cents m) / inject_Z 100
        /\ Qabs (v - m) <= 1 # 200)
  /\ (num_gtb (monthlyRepayment f) (Num 0) = false ->
      repayment_field f = "0.00"
      /\ monthlyRepayment (edit_repayment f (repayment_field f)) = Num 0).
Proof.
  unfold edit_repayment, repayment_field.
  cbn [with_override monthlyRepayment]. split.
  - intros m -> Pos. unfold num_gtb. cbn [num_ltb].
    replace (Qltb 0 m) with true by (symmetry; now apply Qltb_lt).
    pose proof (parseFloat_toFixed2 m) as H. apply is_num_inv in H.
    destruct H as (v & -> & E). exists v. split; [reflexivity|].
    split; [exact E|]. rewrite E. apply cents_close.
  - intros ->. split; reflexivity.
Qed.

Lemma repayment_field_read_back_witness :
  exists v,
    monthlyRepayment
      (edit_repayment
         {| loanAmount := "1200"; interestRate := "12"; loanTerm := "1";
            balloonPayment := ""; monthlyRepayment := Num (1234567 # 1000);
            overrideRepayment := true |}
         (repayment_field
            {| loanAmount := "1200"; interestRate := "12"; loanTerm := "1";
               balloonPayment := ""; monthlyRepayment := Num (1234567 # 1000);
               overrideRepayment := true |})) = Num v
    /\ v == 123457 # 100.
Proof.
  destruct (proj1 (repayment_field_read_back
              {| loanAmount := "1200"; interestRate := "12"; loanTerm := "1";
                 balloonPayment := ""; monthlyRepayment := Num (1234567 # 1000);
                 overrideRepayment := true |}) (1234567 # 1000))
    as (v & Hv & E & _).
  - reflexivity.
  - reflexivity.
  - exists v. split; [exact Hv|]. rewrite E. reflexivity.
Defined.

(** * Blank fields and the hint *)

Lemma skip_ws_blank (s : string) : all_ws s = true -> skip_ws s = "".
Proof.
  induction s as [|c s IH]; [reflexivity|]. cbn [all_ws skip_ws].
  intro H. apply andb_prop in H. destruct H as [-> H]. now apply IH.
Qed.

Lemma parse_blank (s : string) :
  all_ws s = true -> parseFloat s = NaN /\ parseInt s = NaN.
Proof.
  intro H. unfold parseFloat, parseInt. rewrite (skip_ws_blank s H).
  split; reflexivity.
Qed.

(** The hint of line 296 is shown exactly when the input is rejected, and
    then the chart has no data either; a principal, rate or term field
    that is empty or holds only white space is such an input. *)
Theorem blank_field_shows_hint (f : Form) :
  shows_hint f = negb (accepts f)
  /\ (shows_hint f = true ->
      chartData (Result.schedule (amortization f)) (loanTerm f) = [])
  /\ (all_ws (loanAmount f) = true \/ all_ws (interestRate f) = true
      \/ all_ws (loanTerm f) = true ->
      shows_hint f = true).
Proof.
  assert (shows_hint f = negb (accepts f)) as E.
  { unfold shows_hint. destruct (accepts f) eqn:Acc; cbn [negb].
    - apply accepts_spec in Acc. destruct Acc as (P & R & T & A).
      apply Nat.eqb_neq. intro Z.
      apply (accepted_schedule_nonempty f P R T A).
      now apply length_zero_iff_nil.
    - unfold accepts in Acc. apply negb_false_iff in Acc.
      unfold amortization. now rewrite Acc. }
  split; [exact E|]. split.
  - unfold shows_hint, chartData. now intros ->.
  - intro B. rewrite E. apply negb_true_iff.
    unfold accepts. apply negb_false_iff. apply rejected_spec.
    destruct B as [B|[B|B]]; apply parse_blank in B; destruct B as [B1 B2].
    + left. now rewrite B1.
    + right. left. now rewrite B1.
    + right. right. now rewrite B2.
Qed.

Lemma blank_field_shows_hint_witness :
  shows_hint {| loanAmount := "250000"; interestRate := "  "; loanTerm := "30";
                balloonPayment := "0"; monthlyRepayment := Num 0;
                overrideRepayment := false |} = true.
Proof.
  refine (proj2 (proj2 (blank_field_shows_hint _)) _).
  right. left. reflexivity.
Defined.

(** * The chart on any term field *)

(** The loop condition [i < loanTerm] of line 105 on any term field. *)
Lemma ceiling_test (i : nat) (q : Q) :
  Qltb (inject_Z (Z.of_nat i)) q = (i <? Z.to_nat (Qceiling q))%nat.
Proof.
  pose proof (Qceiling_lt q) as Lo. pose proof (Qle_ceiling q) as Hi.
  destruct (i <? Z.to_nat (Qceiling q))%nat eqn:E.
  - apply Nat.ltb_lt in E. apply Qltb_lt.
    assert (Z.of_nat i <= Qceiling q - 1)%Z as L by lia.
    rewrite Zle_Qle in L. lra.
  - apply Nat.ltb_ge in E. apply Qltb_ge.
    destruct (Z.le_gt_cases (Qceiling q) (Z.of_nat i)) as [L|G].
    + rewrite Zle_Qle in L. lra.
    + lia.
Qed.

Lemma chart_test_any (loanTerm : string) (i : nat) :
  num_ltb (num_of_nat i) (toNumber loanTerm) = (i <? years_allowed loanTerm)%nat.
Proof.
  unfold years_allowed. destruct (toNumber loanTerm) as [|q].
  - reflexivity.
  - apply ceiling_test.
Qed.

Lemma years_started_le (rows i : nat) :
  (years_started rows <= i)%nat <-> (rows <= i * 12)%nat.
Proof.
  unfold years_started.
  pose proof (Nat.div_mod_eq (rows + 11) 12) as D.
  pose proof (Nat.mod_upper_bound (rows + 11) 12 ltac:(lia)) as M.
  lia.
Qed.

(** With enough fuel the loop of the chart makes one bar for each year
    index below both the term field and the number of years the schedule
    starts. *)
Lemma chart_loop_bars (s : list Entry.t) (loanTerm : string)
    (fuel i : nat) (acc : list Year.t) :
  (List.length s < (i + fuel) * 12)%nat ->
  chart_loop loanTerm s fuel i acc
  = (acc ++ map (year_bar s)
              (seq i (Nat.min (years_allowed loanTerm)
                        (years_started (List.length s)) - i)))%list.
Proof.
  revert i acc. induction fuel as [|fuel IH]; intros i acc Fuel.
  - cbn [chart_loop].
    assert (years_started (List.length s) <= i)%nat
      by (apply years_started_le; lia).
    replace (Nat.min _ _ - i)%nat with O by lia.
    cbn [seq map]. now rewrite app_nil_r.
  - cbn [chart_loop]. rewrite chart_test_any.
    destruct (i <? years_allowed loanTerm)%nat eqn:L;
      [apply Nat.ltb_lt in L|apply Nat.ltb_ge in L].
    + destruct (slice s (i * 12) (i * 12 + 12)) as [|r rows] eqn:E.
      * cbn [List.length Nat.eqb].
        apply (slice_empty_iff s i) in E. apply years_started_le in E.
        replace (Nat.min _ _ - i)%nat with O by lia.
        cbn [seq map]. now rewrite app_nil_r.
      * cbn [List.length Nat.eqb]. rewrite IH by lia.
        assert (~ (years_started (List.length s) <= i)%nat) as NE.
        { intro H. apply years_started_le in H.
          apply (slice_empty_iff s i) in H. rewrite H in E. discriminate E. }
        replace (Nat.min (years_allowed loanTerm)
                   (years_started (List.length s)) - i)%nat
          with (S (Nat.min (years_allowed loanTerm)
                     (years_started (List.length s)) - S i)) by lia.
        cbn [seq map]. now rewrite <- app_assoc.
    + replace (Nat.min _ _ - i)%nat with O by lia.
      cbn [seq map]. now rewrite app_nil_r.
Qed.

Lemma chartData_bars (s : list Entry.t) (loanTerm : string) :
  chartData s loanTerm
  = map (year_bar s)
      (seq 0 (Nat.min (years_allowed loanTerm)
                (years_started (List.length s)))).
Proof.
  unfold chartData. destruct s as [|r rows] eqn:Es.
  - cbn [List.length Nat.eqb]. unfold years_started.
    now rewrite Nat.min_0_r.
  - rewrite <- Es.
    replace (List.length s =? 0)%nat with false
      by (symmetry; apply Nat.eqb_neq; rewrite Es; discriminate).
    rewrite chart_loop_bars by lia. now rewrite Nat.sub_0_r.
Qed.

(** ** Sums of numbers *)

Lemma num_add_assoc (x y z : num) :
  num_add (num_add x y) z = num_add x (num_add y z).
Proof.
  destruct x as [|a], y as [|b], z as [|c]; try reflexivity.
  cbn [num_add]. f_equal. apply Qred_complete.
  rewrite !Qred_correct. ring.
Qed.

Lemma reduced_add (x y : num) : reduced (num_add x y).
Proof.
  unfold reduced. destruct x as [|a], y as [|b]; try reflexivity.
  cbn [num_add]. f_equal. apply Qred_complete. rewrite Qred_correct. ring.
Qed.

Lemma reduced_zero : reduced (Num 0).
Proof. reflexivity. Qed.

Lemma reduced_parseFloat (s : string) : reduced (parseFloat s).
Proof.
  unfold reduced, parseFloat. destruct (str_decimal _) as [[q r]|];
    [|reflexivity].
  cbn [num_add]. f_equal. apply Qred_complete. rewrite Qred_correct. ring.
Qed.

Lemma num_add_0_l (x : num) : reduced x -> num_add (Num 0) x = x.
Proof.
  unfold reduced. destruct x as [|a]; [reflexivity|]. cbn [num_add].
  intro H. etransitivity; [|exact H]. f_equal. apply Qred_complete. ring.
Qed.

Lemma fold_add_reduced (l : list num) (acc : num) :
  reduced acc -> reduced (fold_left num_add l acc).
Proof.
  revert acc. induction l as [|y l IH]; intros acc H; [exact H|].
  cbn [fold_left]. apply IH, reduced_add.
Qed.

Lemma total_reduced (l : list num) : reduced (total l).
Proof. apply fold_add_reduced, reduced_zero. Qed.

Lemma fold_add_total (l : list num) (acc : num) :
  reduced acc -> fold_left num_add l acc = num_add acc (total l).
Proof.
  unfold total. revert acc. induction l as [|y l IH]; intros acc H.
  - symmetry. exact H.
  - cbn [fold_left]. rewrite (IH (num_add acc y)) by apply reduced_add.
    rewrite (IH (num_add (Num 0) y)) by apply reduced_add.
    rewrite <- num_add_assoc. f_equal.
    destruct acc as [|a], y as [|b]; try reflexivity.
    cbn [num_add]. f_equal. apply Qred_complete.
    rewrite !Qred_correct. ring.
Qed.

Lemma total_app (l1 l2 : list num) :
  total (l1 ++ l2) = num_add (total l1) (total l2).
Proof.
  unfold total at 1. rewrite fold_left_app.
  apply fold_add_total, total_reduced.
Qed.

Lemma sum_of_total (field : Entry.t -> string) (rows : list Entry.t) :
  sum_of field rows = total (map (fun r => parseFloat (field r)) rows).
Proof. reflexivity. Qed.

Lemma sum_of_app (field : Entry.t -> string) (l1 l2 : list Entry.t) :
  sum_of field (l1 ++ l2) = num_add (sum_of field l1) (sum_of field l2).
Proof. rewrite !sum_of_total, map_app. apply total_app. Qed.

Lemma firstn_slice {A : Type} (l : list A) (a b : nat) :
  firstn (a + b) l = (firstn a l ++ slice l a (a + b))%list.
Proof.
  unfold slice. replace (a + b - a)%nat with b by lia.
  revert l. induction a as [|a IH]; intro l; [reflexivity|].
  destruct l as [|x l]; [now rewrite skipn_nil, !firstn_nil|].
  cbn [Nat.add firstn skipn app]. f_equal. apply IH.
Qed.

Lemma total_single (x : num) : reduced x -> total [x] = x.
Proof. intro H. unfold total. cbn [fold_left]. now apply num_add_0_l. Qed.

Lemma sum_of_reduced (field : Entry.t -> string) (rows : list Entry.t) :
  reduced (sum_of field rows).
Proof. rewrite sum_of_total. apply total_reduced. Qed.

Lemma year_bar_sums (s : list Entry.t) (i : nat) :
  Year.Principal (year_bar s i)
  = sum_of Entry.principal (slice s (i * 12) (i * 12 + 12))
  /\ Year.Interest (year_bar s i)
     = sum_of Entry.interest (slice s (i * 12) (i * 12 + 12)).
Proof.
  unfold year_bar, sum_of. cbv zeta. cbn [Year.Principal Year.Interest].
  rewrite !fold_sum. split; reflexivity.
Qed.

(** The bars of the first [m] years sum the first [12 m] rows. *)
Lemma bars_total (s : list Entry.t) (m : nat) :
  total (map Year.Principal (map (year_bar s) (seq 0 m)))
  = sum_of Entry.principal (firstn (m * 12) s)
  /\ total (map Year.Interest (map (year_bar s) (seq 0 m)))
     = sum_of Entry.interest (firstn (m * 12) s).
Proof.
  induction m as [|m [IHp IHi]]; [split; reflexivity|].
  rewrite seq_S, !map_app, !total_app, IHp, IHi. cbn [Nat.add map].
  destruct (year_bar_sums s m) as [-> ->].
  rewrite !total_single by apply sum_of_reduced.
  replace (S m * 12)%nat with (m * 12 + 12)%nat by lia.
  rewrite firstn_slice, !sum_of_app. split; reflexivity.
Qed.

Lemma chart_totals_cover (s : list Entry.t) (loanTerm : string) :
  (List.length s <= years_allowed loanTerm * 12)%nat ->
  total (map Year.Principal (chartData s loanTerm))
  = sum_of Entry.principal s
  /\ total (map Year.Interest (chartData s loanTerm))
     = sum_of Entry.interest s.
Proof.
  intro Cover. rewrite chartData_bars.
  destruct (bars_total s (Nat.min (years_allowed loanTerm)
                            (years_started (List.length s)))) as [Ep Ei].
  rewrite Ep, Ei.
  assert (List.length s
          <= Nat.min (years_allowed loanTerm)
               (years_started (List.length s)) * 12)%nat as L.
  { pose proof (proj1 (years_started_le (List.length s)
                         (years_started (List.length s))) (le_n _)).
    lia. }
  now rewrite firstn_all2 by exact L.
Qed.

(** * The loop has run to its end *)

(** A month that runs is within the whole months of the term. *)
Lemma active_within_bound (f : Form) (m : nat) :
  loop_test (termInMonths_of f) (S m) (state_after f m) = true ->
  (S m <= months_bound (termInMonths_of f))%nat.
Proof.
  unfold loop_test. intro Tst. apply andb_prop in Tst.
  destruct Tst as [Le _]. apply num_leb_true in Le.
  destruct Le as (a & b & Ha & Hb & L). rewrite Hb. cbn [months_bound].
  unfold num_of_nat, num_of_Z in Ha. injection Ha as <-.
  assert (Z.of_nat (S m) <= Qfloor b)%Z as Z.
  { rewrite <- (Qfloor_Z (Z.of_nat (S m))). now apply Qfloor_resp_le. }
  lia.
Qed.

Lemma rows_within_bound (f : Form) (k : nat) :
  (rows_after f k <= months_bound (termInMonths_of f))%nat.
Proof.
  destruct (state_after_rows f k) as [St Act].
  destruct (rows_after f k) as [|m]; [lia|].
  destruct (active_step f m Act) as (_ & Tst & _).
  now apply active_within_bound.
Qed.

(** The fuel of the model is enough: the loop of lines 49-81 stops by
    itself within the whole months of the term.  More iterations change
    nothing, and the state reached fails the loop condition for the next
    month (a break leaves a balance that is not above zero, which fails it
    too). *)
Theorem loop_runs_to_completion (f : Form) :
  let st := state_after f (months_bound (termInMonths_of f)) in
  (forall k, (months_bound (termInMonths_of f) <= k)%nat ->
             state_after f k = st)
  /\ loop_test (termInMonths_of f) (S (List.length (newSchedule st))) st
     = false.
Proof.
  cbv zeta. set (mb := months_bound (termInMonths_of f)). split.
  - intros k L.
    destruct (state_after_rows f k) as [Sk Ak].
    destruct (state_after_rows f mb) as [Sm Am].
    pose proof (rows_within_bound f k) as B. fold mb in B.
    pose proof (rows_after_mono_le f (rows_after f k) mb B) as M1.
    pose proof (rows_after_mono_le f mb k L) as M2.
    rewrite Ak in M1.
    rewrite Sk, Sm. f_equal. lia.
  - destruct (state_after_rows f mb) as [Sm Am].
    fold (rows_after f mb). set (m := rows_after f mb) in *.
    destruct (loop_test _ _ _) eqn:Tst; [|reflexivity]. exfalso.
    rewrite Sm in Tst.
    pose proof (active_within_bound f m Tst) as B. fold mb in B.
    assert (rows_after f (S m) = S m) as Act.
    { unfold rows_after at 1. rewrite state_after_S, Am, Nat.eqb_refl, Tst.
      cbn [andb]. rewrite month_step_rows. fold (rows_after f m).
      now rewrite Am. }
    pose proof (rows_after_mono_le f (S m) mb B) as M.
    fold m in M. lia.
Qed.

Lemma loop_runs_to_completion_witness :
  state_after
    {| loanAmount := "1000"; interestRate := "12"; loanTerm := "1";
       balloonPayment := "0"; monthlyRepayment := Num (400 # 1);
       overrideRepayment := true |} 15
  = state_after
      {| loanAmount := "1000"; interestRate := "12"; loanTerm := "1";
         balloonPayment := "0"; monthlyRepayment := Num (400 # 1);
         overrideRepayment := true |} 12.
Proof.
  refine (proj1 (loop_runs_to_completion _) 15%nat _).
  vm_compute. lia.
Defined.

(** * The chart of the component *)

(** The chart on any schedule and any term field: one bar for each year
    index [i = 0, 1, ...] that is below the term field read as a number
    and has rows, so [min (ceiling of the term) (rows + 11) / 12] bars;
    none when the term field is not a numeric literal as a whole; and the
    fuel of the model is enough. *)
Theorem chart_bars (s : list Entry.t) (loanTerm : string) :
  chartData s loanTerm
  = map (year_bar s)
      (seq 0 (Nat.min (years_allowed loanTerm)
                (years_started (List.length s))))
  /\ (chartData s loanTerm = [] <-> s = [] \/ years_allowed loanTerm = O)
  /\ (forall fuel,
        (List.length s < fuel)%nat ->
        chart_loop loanTerm s fuel 0 [] = chartData s loanTerm).
Proof.
  split; [apply chartData_bars|]. split.
  - rewrite chartData_bars. split.
    + intro E. apply (f_equal (@List.length _)) in E.
      rewrite length_map, length_seq in E. cbn [List.length] in E.
      destruct s as [|r rows]; [now left|right].
      assert (~ (years_started (List.length (r :: rows)) <= 0)%nat) as NE.
      { intro H. apply years_started_le in H. cbn [List.length] in H. lia. }
      lia.
    + intros [-> | ->]; [|reflexivity].
      cbn [List.length]. unfold years_started. now rewrite Nat.min_0_r.
  - intros fuel L. rewrite chartData_bars, chart_loop_bars by lia.
    now rewrite Nat.sub_0_r.
Qed.

Lemma chart_bars_witness :
  chartData
    [ {| Entry.month := 1; Entry.interest := "10.00";
         Entry.principal := "90.00"; Entry.payment := "100.00";
         Entry.remainingBalance := "910.00" |} ] "30 years" = [].
Proof.
  refine (proj2 (proj1 (proj2 (chart_bars _ _))) _).
  right. reflexivity.
Defined.

Lemma plain_term_years (f : Form) (P R : Q) (T : Z) :
  Accepted f P R T ->
  toNumber (loanTerm f) = parseInt (loanTerm f) ->
  years_allowed (loanTerm f) = Z.to_nat T.
Proof.
  intros A E. unfold years_allowed.
  rewrite E, (acc_term f P R T A). unfold num_of_Z.
  now rewrite Qceiling_Z.
Qed.

Lemma plain_term_covers (f : Form) (P R : Q) (T : Z) :
  Accepted f P R T ->
  toNumber (loanTerm f) = parseInt (loanTerm f) ->
  (List.length (Result.schedule (amortization f))
   <= years_allowed (loanTerm f) * 12)%nat.
Proof.
  intros A E. rewrite (plain_term_years f P R T A E).
  rewrite (schedule_length f P R T A).
  apply (rows_le_months f T).
Qed.

(** With a term field that is a plain whole number, the chart covers the
    schedule of the engine: one bar for each year the schedule starts,
    and the bars add up to the principal and interest columns of the
    table, as read back from the rows. *)
Theorem chart_adds_up (f : Form) (P R : Q) (T : Z) :
  Accepted f P R T ->
  toNumber (loanTerm f) = parseInt (loanTerm f) ->
  List.length (chartData (Result.schedule (amortization f)) (loanTerm f))
  = years_started (List.length (Result.schedule (amortization f)))
  /\ total (map Year.Principal
              (chartData (Result.schedule (amortization f)) (loanTerm f)))
     = sum_of Entry.principal (Result.schedule (amortization f))
  /\ total (map Year.Interest
              (chartData (Result.schedule (amortization f)) (loanTerm f)))
     = sum_of Entry.interest (Result.schedule (amortization f)).
Proof.
  intros A E. pose proof (plain_term_covers f P R T A E) as Cover.
  split; [|now apply chart_totals_cover].
  rewrite chartData_bars, length_map, length_seq.
  assert (~ (years_allowed (loanTerm f)
             < years_started (List.length (Result.schedule (amortization f))))%nat)
    as NL.
  { intro Lt. apply Nat.lt_nge in Lt. apply Lt.
    now apply years_started_le. }
  lia.
Qed.

Lemma chart_adds_up_witness :
  let f := {| loanAmount := "1000"; interestRate := "12"; loanTerm := "2";
              balloonPayment := "0"; monthlyRepayment := Num (70 # 1);
              overrideRepayment := true |} in
  List.length (chartData (Result.schedule (amortization f)) (loanTerm f))
  = years_started (List.length (Result.schedule (amortization f))).
Proof.
  cbv zeta.
  refine (proj1 (chart_adds_up _ (1000 # 1) (12 # 1) 2 _ _)).
  - split; reflexivity.
  - reflexivity.
Defined.

(** ** Rounding in the chart *)





